(** * laba.py: a regular-expression automaton, its compiler and its matcher

    A shallow embedding of [src/laba.py].  The Python program builds a graph
    of [State] objects that reference each other (and themselves), mutates
    their [next_states] lists while compiling and compares states by
    identity ([in], [!=]).  The embedding therefore keeps an explicit object
    store: a state is an address into a list of objects, allocation appends
    to the list, and every mutation rewrites the object at its address. *)

From Stdlib Require Import NArith Ascii String Lia.
From stdpp Require Import base numbers list.

Local Open Scope nat_scope.

(** ** Characters and strings

    A Python [str] is a sequence of Unicode code points; a character is
    modelled by its code point. *)

Definition char := N.
Abbreviation str := (list char).

(** Reading a Rocq string literal as a Python string (one code point per
    character of the literal). *)
Definition str_of (s : string) : str :=
  (fun a => N_of_ascii a) <$> list_ascii_of_string s.

(** [str.isascii()] on a one-character string. *)
Definition isascii (c : char) : bool := (c <? 128)%N.

Definition STAR : char := 42%N.
Definition PLUS : char := 43%N.
Definition DOT : char := 46%N.

(** ** Exceptions and the error monad *)

Inductive exn :=
| LeadingQuantifier (q : char)
    (* ValueError("* cannot be the first character"), and the same for + *)
| UnsupportedToken (token : char)
    (* ValueError(f"Unsupported token: {token}") *)
| IndexError
    (* list assignment or string index out of range *)
| RecursionError
    (* maximum recursion depth exceeded, in check_self *)
| DanglingReference.
    (* an address that was never allocated; Python references cannot
       dangle, the case only exists because addresses are numbers *)

Inductive result (A : Type) :=
| Ok (a : A)
| Raise (e : exn).
Arguments Ok {A} a.
Arguments Raise {A} e.

#[global] Instance result_bind : MBind result := fun A B k m =>
  match m with
  | Ok a => k a
  | Raise e => Raise e
  end.

(** ** The object store *)

Abbreviation addr := nat (only parsing).

Inductive State_class :=
| StartState
| TerminationState
| DotState
| AsciiState (curr_sym : char)
| StarState (checking_state : addr)
| PlusState (checking_state : addr).

Record State := mkState {
  class : State_class;
  next_states : list addr
}.

Abbreviation heap := (list State).

(** Following a reference. *)
Definition deref (h : heap) (a : addr) : result State :=
  match h !! a with
  | Some st => Ok st
  | None => Raise DanglingReference
  end.

(** Calling a constructor: every [__init__] sets [next_states = []]. *)
Definition alloc (h : heap) (c : State_class) : heap * addr :=
  (h ++ [mkState c []], length h).

(** [a.next_states.append(x)] *)
Definition append_next (a x : addr) (h : heap) : result heap :=
  st ← deref h a;
  Ok (<[a := mkState (class st) (next_states st ++ [x])]> h).

(** [a.next_states[-1] = x] *)
Definition set_last_next (a x : addr) (h : heap) : result heap :=
  st ← deref h a;
  match next_states st with
  | [] => Raise IndexError
  | ns => Ok (<[a := mkState (class st) (<[pred (length ns) := x]> ns)]> h)
  end.

(** ** check_self

    [StarState.check_self] and [PlusState.check_self] delegate to the
    wrapped state, and each delegation is a call: a Repeat that wraps a
    Repeat that wraps an atom takes three frames of the interpreter's
    stack.  The interpreter bounds the depth of that stack: a call that
    would take it beyond [sys.getrecursionlimit()], which is 1000 unless a
    program changes it (laba.py does not), raises RecursionError.  The
    frames in use when [check_self] is first entered depend on the caller;
    for a method of the automaton called from the top level of a module,
    as in the script's own [__main__] block, CPython 3.11 has three taken
    (the module's, the method's and its own margin) and so leaves 997 to
    [check_self]. *)

Definition recursion_limit : nat := 1000.

Definition check_self_budget : nat := recursion_limit - 3.
#[global] Opaque check_self_budget.

(** The body of [check_self] in each class: the answer, or the state whose
    [check_self] it calls and whose answer it returns. *)
Definition check_self_body (k : State_class) (char : char) : bool + addr :=
  match k with
  | StartState => inl true
  | TerminationState => inl false
  | DotState => inl true
  | AsciiState curr_sym => inl (char =? curr_sym)%N
  | StarState checking_state => inr checking_state
  | PlusState checking_state => inr checking_state
  end.

(** [check_self] with [depth] frames left. *)
Fixpoint check_self_rec (depth : nat) (h : heap) (a : addr) (c : char)
  : result bool :=
  match depth with
  | 0 => Raise RecursionError
  | S d =>
      st ← deref h a;
      match check_self_body (class st) c with
      | inl b => Ok b
      | inr checking_state => check_self_rec d h checking_state c
      end
  end.

Definition check_self (h : heap) (a : addr) (c : char) : result bool :=
  check_self_rec check_self_budget h a c.
#[global] Arguments check_self : simpl never.

(** ** RegexFSM.__init__ *)

Record RegexFSM := mkFSM {
  store : heap;
  start_state : addr;
  terminal_state : addr;
  states : list addr
}.

(** The loop variables of [__init__].  [prev_state] is assigned once, before
    the loop, and never again. *)
Record frame := mkFrame {
  f_store : heap;
  f_states : list addr;
  tmp_next_state : option addr
}.

Definition START : addr := 0.
Definition TERMINAL : addr := 1.
Definition prev_state : addr := START.

Definition frame0 : frame :=
  mkFrame [mkState StartState []; mkState TerminationState []] [START] None.

(** [__init_next_state] *)
Definition init_next_state (token : char) : result State_class :=
  if (token =? DOT)%N then Ok DotState
  else if isascii token then Ok (AsciiState token)
  else Raise (UnsupportedToken token).

(** One iteration of the [while] loop. *)
Definition loop_body (fr : frame) (c : char) : result frame :=
  if (c =? STAR)%N then
    match tmp_next_state fr with
    | None => Raise (LeadingQuantifier c)
    | Some tmp =>
        let '(h1, star_state) := alloc (f_store fr) (StarState tmp) in
        h2 ← set_last_next prev_state star_state h1;
        h3 ← append_next star_state tmp h2;
        h4 ← append_next star_state star_state h3;
        Ok (mkFrame h4 (f_states fr ++ [star_state]) (Some star_state))
    end
  else if (c =? PLUS)%N then
    match tmp_next_state fr with
    | None => Raise (LeadingQuantifier c)
    | Some tmp =>
        let '(h1, plus_state) := alloc (f_store fr) (PlusState tmp) in
        h2 ← set_last_next prev_state plus_state h1;
        h3 ← append_next plus_state tmp h2;
        h4 ← append_next tmp tmp h3;
        Ok (mkFrame h4 (f_states fr ++ [plus_state]) (Some tmp))
    end
  else
    cls ← init_next_state c;
    let '(h1, new_state) := alloc (f_store fr) cls in
    h2 ← match tmp_next_state fr with
          | Some tmp => append_next tmp new_state h1
          | None => append_next prev_state new_state h1
          end;
    Ok (mkFrame h2 (f_states fr ++ [new_state]) (Some new_state)).

Fixpoint loop (fr : frame) (regex_expr : str) : result frame :=
  match regex_expr with
  | [] => Ok fr
  | c :: rest => fr' ← loop_body fr c; loop fr' rest
  end.

(** The statements after the loop. *)
Definition finish (fr : frame) : result RegexFSM :=
  h ← match tmp_next_state fr with
       | Some tmp => append_next tmp TERMINAL (f_store fr)
       | None => append_next START TERMINAL (f_store fr)
       end;
  Ok (mkFSM h START TERMINAL (f_states fr)).

Definition RegexFSM_init (regex_expr : str) : result RegexFSM :=
  fr ← loop frame0 regex_expr; finish fr.

(** ** RegexFSM.check_string *)

Definition is_StarState (st : State) : bool :=
  match class st with
  | StarState _ => true
  | _ => false
  end.

(** The [for] loop of the branch [pos == string_len]: is some successor a
    StarState that has the terminal state among its own successors? *)
Fixpoint star_to_terminal (fsm : RegexFSM) (nexts : list addr) : result bool :=
  match nexts with
  | [] => Ok false
  | next_state :: rest =>
      nst ← deref (store fsm) next_state;
      if is_StarState nst && bool_decide (terminal_state fsm ∈ next_states nst)
      then Ok true
      else star_to_terminal fsm rest
  end.

(** The [for] loop of the other branch: the pairs it appends, in order. *)
Fixpoint successors (h : heap) (c : char) (pos : nat) (nexts : list addr)
  : result (list (addr * nat)) :=
  match nexts with
  | [] => Ok []
  | next_state :: rest =>
      b ← check_self h next_state c;
      nst ← deref h next_state;
      more ← successors h c pos rest;
      let consumed : list (addr * nat) :=
        if b : bool then [(next_state, pos + 1)] else [] in
      let skipped : list (addr * nat) :=
        if is_StarState nst
        then (fun s : addr => (s, pos)) <$>
             filter (fun s : addr => s ≠ next_state) (next_states nst)
        else [] in
      Ok (consumed ++ skipped ++ more)
  end.

(** The [while current_positions] loop; [None] when [fuel] iterations were
    not enough to leave it. *)
Fixpoint check_loop (fuel : nat) (fsm : RegexFSM) (input_string : str)
    (current_positions : list (addr * nat)) : option (result bool) :=
  match fuel with
  | 0 => None
  | S fuel' =>
      match current_positions with
      | [] => Some (Ok false)
      | (state, pos) :: rest =>
          match deref (store fsm) state with
          | Raise e => Some (Raise e)
          | Ok st =>
              if pos =? length input_string then
                if bool_decide (terminal_state fsm ∈ next_states st)
                then Some (Ok true)
                else
                  match star_to_terminal fsm (next_states st) with
                  | Raise e => Some (Raise e)
                  | Ok true => Some (Ok true)
                  | Ok false => check_loop fuel' fsm input_string rest
                  end
              else
                match input_string !! pos with
                | None => Some (Raise IndexError)
                | Some c =>
                    match successors (store fsm) c pos (next_states st) with
                    | Raise e => Some (Raise e)
                    | Ok new => check_loop fuel' fsm input_string (rest ++ new)
                    end
                end
          end
      end
  end.

Definition check_string (fuel : nat) (fsm : RegexFSM) (input_string : str)
  : option (result bool) :=
  check_loop fuel fsm input_string [(start_state fsm, 0)].

(** [check_string] returns [b]: the loop is left, with [b], after finitely
    many iterations. *)
Definition returns (fsm : RegexFSM) (input_string : str) (b : bool) : Prop :=
  exists fuel, check_string fuel fsm input_string = Some (Ok b).

(** ** State.check_next

    The method walks [next_states] and returns the first state whose
    [check_self] handles the character; when there is none it raises
    NotImplementedError("rejected string"), here [Rejected].  [Failed]
    carries an error of [check_self] or of following a reference. *)




(** * Vocabulary of the statements

    The predicates, invariants and measures the theorems are stated with,
    grouped as the proofs below are. *)

(** ** Views of the store *)

Definition classes (h : heap) : list State_class := class <$> h.

Definition nexts (h : heap) (a : addr) : list addr :=
  default [] (next_states <$> h !! a).

(** ** The compiler, one iteration at a time *)

Definition size (fr : frame) : nat := length (f_store fr).

(** The state that receives the next atom: [tmp_next_state] when there is
    one, otherwise [prev_state]. *)
Definition anchor (fr : frame) : addr := default prev_state (tmp_next_state fr).

Definition quantifier (c : char) : Prop := c = STAR \/ c = PLUS.

Record frame_ok (fr : frame) : Prop := {
  ok_size : 2 <= size fr;
  ok_tmp : forall t, tmp_next_state fr = Some t -> 2 <= t < size fr;
  ok_start : match tmp_next_state fr with
             | None => nexts (f_store fr) START = []
             | Some _ => nexts (f_store fr) START <> []
             end
}.

(** What one successful iteration does to the classes, the successor lists
    and the loop variables. *)
Inductive step (fr : frame) (c : char) (fr' : frame) : Prop :=
| step_atom k :
    c <> STAR -> c <> PLUS -> init_next_state c = Ok k ->
    classes (f_store fr') = classes (f_store fr) ++ [k] ->
    (forall u, nexts (f_store fr') u
               = if decide (u = anchor fr)
                 then nexts (f_store fr) u ++ [size fr]
                 else nexts (f_store fr) u) ->
    f_states fr' = f_states fr ++ [size fr] ->
    tmp_next_state fr' = Some (size fr) ->
    step fr c fr'
| step_star t :
    c = STAR -> tmp_next_state fr = Some t ->
    classes (f_store fr') = classes (f_store fr) ++ [StarState t] ->
    (forall u, nexts (f_store fr') u
               = if decide (u = size fr) then [t; size fr]
                 else if decide (u = START)
                 then <[pred (length (nexts (f_store fr) START)) := size fr]>
                        (nexts (f_store fr) START)
                 else nexts (f_store fr) u) ->
    f_states fr' = f_states fr ++ [size fr] ->
    tmp_next_state fr' = Some (size fr) ->
    step fr c fr'
| step_plus t :
    c = PLUS -> tmp_next_state fr = Some t ->
    classes (f_store fr') = classes (f_store fr) ++ [PlusState t] ->
    (forall u, nexts (f_store fr') u
               = if decide (u = t) then nexts (f_store fr) t ++ [t]
                 else if decide (u = size fr) then [t]
                 else if decide (u = START)
                 then <[pred (length (nexts (f_store fr) START)) := size fr]>
                        (nexts (f_store fr) START)
                 else nexts (f_store fr) u) ->
    f_states fr' = f_states fr ++ [size fr] ->
    tmp_next_state fr' = Some t ->
    step fr c fr'.

(** ** The loop as a whole *)

(** [built p fr]: the loop, started on a fresh automaton, has read the
    pattern [p] without error and its variables are [fr]. *)
Inductive built : str -> frame -> Prop :=
| built_nil : built [] frame0
| built_snoc p c fr fr' : built p fr -> step fr c fr' -> built (p ++ [c]) fr'.

Definition leading_quantifier (p : str) : Prop :=
  exists q rest, p = q :: rest /\ quantifier q.

(** [compiled p fsm]: the constructor, given [p], returns [fsm]. *)
Definition compiled (p : str) (fsm : RegexFSM) : Prop :=
  RegexFSM_init p = Ok fsm.

(** ** The classes of the objects *)

(** The class of the object created for the token [c], which is allocated
    at address [a]. *)
Definition token_class (a : addr) (c : char) (k : State_class) : Prop :=
  if decide (c = STAR) then exists t, k = StarState t /\ 2 <= t < a
  else if decide (c = PLUS) then exists t, k = PlusState t /\ 2 <= t < a
  else init_next_state c = Ok k.

Definition classes_shape (p : str) (cs : list State_class) : Prop :=
  cs !! START = Some StartState /\
  cs !! TERMINAL = Some TerminationState /\
  forall i c, p !! i = Some c ->
    exists k, cs !! (2 + i) = Some k /\ token_class (2 + i) c k.

(** ** Running the matcher *)

(** The pattern [regex_expr] compiles and [check_string], given
    [input_string], returns [b]. *)
Definition matches (regex_expr input_string : string) (b : bool) : Prop :=
  exists fsm, compiled (str_of regex_expr) fsm /\
              returns fsm (str_of input_string) b.

Ltac run_matcher :=
  eexists; split; [vm_compute; reflexivity | exists 200; vm_compute; reflexivity].

(** Reachability along [next_states] edges. *)
Inductive reachable (h : heap) (a : addr) : addr -> Prop :=
| reach_here : reachable h a a
| reach_next b c : reachable h a b -> c ∈ nexts h b -> reachable h a c.

(** ** Errors *)

(** The errors the matcher could raise at all: none of them is a
    ValueError of the compiler. *)
Definition matcher_error (e : exn) : Prop :=
  e = IndexError \/ e = RecursionError \/ e = DanglingReference.

(** ** One token inside a pattern *)

Definition checking_state_of (k : State_class) : option addr :=
  match k with
  | StarState t => Some t
  | PlusState t => Some t
  | _ => None
  end.

(** The state that the state at address [a] wraps, if it is a Repeat. *)
Definition wrapped (fsm : RegexFSM) (a : addr) : option addr :=
  classes (store fsm) !! a ≫= checking_state_of.

(** The state created for the token at index [i + 1] wraps the state
    created for the token at index [i]. *)
Definition wraps_previous (fsm : RegexFSM) (i : nat) : Prop :=
  exists prev new,
    states fsm !! (S i) = Some prev /\ states fsm !! (S (S i)) = Some new /\
    wrapped fsm new = Some prev.

(** ** Patterns without quantifiers *)

(** Equality of pattern and input with [.] as a one-character wildcard, as
    a predicate and as a function. *)
Definition wild_eq (p s : str) : Prop :=
  length s = length p /\
  forall i t c, p !! i = Some t -> s !! i = Some c -> t = DOT \/ c = t.

Fixpoint wild_eqb (p s : str) : bool :=
  match p, s with
  | [], [] => true
  | t :: p', c :: s' => ((t =? DOT)%N || (c =? t)%N) && wild_eqb p' s'
  | _, _ => false
  end.

(** The state the matcher is in after [pos] characters of a pattern without
    quantifiers. *)
Definition addr_at (pos : nat) : addr :=
  match pos with
  | 0 => START
  | S _ => S pos
  end.

Definition chain (p : str) (fr : frame) : Prop :=
  (forall i, i < length p ->
     nexts (f_store fr) (2 + i) = if decide (S i < length p) then [3 + i] else []) /\
  nexts (f_store fr) START = (if decide (p = []) then [] else [2]) /\
  nexts (f_store fr) TERMINAL = [] /\
  tmp_next_state fr = if decide (p = []) then None else Some (1 + length p).

(** ** Well-formed automata *)

Definition is_star_class (k : State_class) : bool :=
  match k with
  | StarState _ => true
  | _ => false
  end.

Definition is_sink_class (k : State_class) : bool :=
  match k with
  | DotState | AsciiState _ | TerminationState => true
  | _ => false
  end.

(** The classes: start and terminal state first, then atoms and Repeats,
    every Repeat wrapping a state older than itself. *)
Definition wf_classes (cs : list State_class) : Prop :=
  cs !! START = Some StartState /\
  cs !! TERMINAL = Some TerminationState /\
  forall a k, 2 <= a -> cs !! a = Some k ->
    match k with
    | StartState | TerminationState => False
    | StarState t | PlusState t => 2 <= t < a
    | DotState | AsciiState _ => True
    end.

(** What is true of every edge [u -> v]: only the start state and Repeats
    lead to a StarState, and a Repeat leads to nothing newer than itself
    except atoms and the terminal state. *)
Definition edge_ok (cs : list State_class) (u v : addr) : Prop :=
  v < length cs /\ v <> START /\
  match cs !! u with
  | Some StartState => True
  | Some DotState | Some (AsciiState _) =>
      forall k, cs !! v = Some k -> is_star_class k = false
  | Some (StarState _) | Some (PlusState _) =>
      v <= u \/ exists k, cs !! v = Some k /\ is_sink_class k = true
  | Some TerminationState | None => False
  end.

Definition edges_ok (h : heap) : Prop :=
  forall u v, v ∈ nexts h u -> edge_ok (classes h) u v.

Record wf (fsm : RegexFSM) : Prop := {
  wf_start : start_state fsm = START;
  wf_terminal : terminal_state fsm = TERMINAL;
  wf_cls : wf_classes (classes (store fsm));
  wf_edges : edges_ok (store fsm)
}.

(** ** Termination of the matcher *)

(** How far a state is from the end of its chain of moves that consume no
    input: such a move goes from the start state, or from a Repeat, to a
    successor of one of its StarState successors. *)
Definition rank (cs : list State_class) (a : addr) : nat :=
  match cs !! a with
  | Some StartState => length cs
  | Some (StarState _) | Some (PlusState _) => a
  | _ => 0
  end.

Definition max_out (h : heap) : nat :=
  max_list ((fun st => length (next_states st)) <$> h).

(** A bound on the number of pairs one iteration appends. *)
Definition branching (h : heap) : nat := S (max_out h * S (max_out h)).

(** Iterations that a pair of measure [mu] can cause, itself included. *)
Fixpoint work (d : nat) (mu : nat) : nat :=
  match mu with
  | 0 => 1
  | S m => 1 + d * work d m
  end.

Definition measure (fsm : RegexFSM) (s : str) (it : addr * nat) : nat :=
  (length s - it.2) * S (length (store fsm)) + rank (classes (store fsm)) it.1.

Definition cost (fsm : RegexFSM) (s : str) (it : addr * nat) : nat :=
  work (branching (store fsm)) (measure fsm s it).

(** The pairs the loop may append for a pair at position [pos] whose state
    has the successors [ns]. *)
Definition child (h : heap) (ns : list addr) (pos : nat) (it : addr * nat) : Prop :=
  (it.2 = pos + 1 /\ it.1 ∈ ns) \/
  (it.2 = pos /\ exists n t, n ∈ ns /\ classes h !! n = Some (StarState t) /\
                             it.1 ∈ nexts h n /\ it.1 <> n).

Definition valid (fsm : RegexFSM) (s : str) (it : addr * nat) : Prop :=
  it.1 < length (store fsm) /\ it.2 <= length s.

(** ** The search that check_string performs *)

(** A pair that makes the loop return true. *)
Definition accepting (fsm : RegexFSM) (s : str) (it : addr * nat) : Prop :=
  it.2 = length s /\
  (terminal_state fsm ∈ nexts (store fsm) it.1 \/
   exists n t, n ∈ nexts (store fsm) it.1 /\
               classes (store fsm) !! n = Some (StarState t) /\
               terminal_state fsm ∈ nexts (store fsm) n).

(** The pairs the loop appends for a pair it pops before the end of the
    input: a successor that handles the character, one position further,
    or a successor of a StarState successor, at the same position. *)
Inductive move (fsm : RegexFSM) (s : str) : addr * nat -> addr * nat -> Prop :=
| move_consume a pos c n :
    s !! pos = Some c -> n ∈ nexts (store fsm) a ->
    check_self (store fsm) n c = Ok true ->
    move fsm s (a, pos) (n, pos + 1)
| move_skip a pos c n t s' :
    s !! pos = Some c -> n ∈ nexts (store fsm) a ->
    classes (store fsm) !! n = Some (StarState t) ->
    s' ∈ nexts (store fsm) n -> s' <> n ->
    move fsm s (a, pos) (s', pos).

Inductive moves (fsm : RegexFSM) (s : str) : addr * nat -> addr * nat -> Prop :=
| moves_here it : moves fsm s it it
| moves_step it1 it2 it3 :
    move fsm s it1 it2 -> moves fsm s it2 it3 -> moves fsm s it1 it3.

(** ** Iterations after a given one *)

(** [steps fr p fr']: the loop, its variables being [fr], reads [p] without
    error and ends with the variables [fr']. *)
Inductive steps : frame -> str -> frame -> Prop :=
| steps_nil fr : steps fr [] fr
| steps_snoc fr p c fr1 fr2 :
    steps fr p fr1 -> step fr1 c fr2 -> steps fr (p ++ [c]) fr2.

(** From the address [low] on, the chain never goes back below [low]:
    [tmp_next_state] is at [low] or above, and so is every successor of a
    state at [low] or above. *)
Definition above (low : addr) (fr : frame) : Prop :=
  (exists t, tmp_next_state fr = Some t /\ low <= t) /\
  forall u v, low <= u -> v ∈ nexts (f_store fr) u -> low <= v.

(** ** Order of the states along the edges *)

Definition is_atom_class (k : State_class) : bool :=
  match k with
  | DotState | AsciiState _ => true
  | _ => false
  end.

(** A number that grows along every edge that is not a self-loop: the
    start state first, then the Repeats from the newest to the oldest, then
    the atoms from the oldest to the newest, then the terminal state. *)
Definition edge_order (cs : list State_class) (a : addr) : nat :=
  match cs !! a with
  | Some StartState => 0
  | Some (StarState _) | Some (PlusState _) => 1 + (length cs - a)
  | Some DotState | Some (AsciiState _) => 1 + length cs + a
  | Some TerminationState => 2 + 2 * length cs
  | None => 0
  end.

(** ** One atom and one quantifier *)

(** The atom [x] handles the character [c]: the test of the DotState or of
    the AsciiState that [x] compiles to. *)
Definition handles (x c : char) : Prop := x = DOT \/ c = x.

(** The automaton of the pattern made of one atom, whose class is [k], and
    a [*], as the constructor builds it, and the same with a [+]. *)
Definition atom_star_fsm (k : State_class) : RegexFSM :=
  mkFSM [mkState StartState [3]; mkState TerminationState [];
         mkState k []; mkState (StarState 2) [2; 3; 1]]
        START TERMINAL [0; 2; 3].

Definition atom_plus_fsm (k : State_class) : RegexFSM :=
  mkFSM [mkState StartState [3]; mkState TerminationState [];
         mkState k [2; 1]; mkState (PlusState 2) [2]]
        START TERMINAL [0; 2; 3].

(** ** Two patterns with the same tail *)

(** Addresses of the automaton of [x :: rest] seen in the automaton of
    [pre ++ x :: rest], [d] being the length of [pre]: start and terminal
    state keep their addresses, every other state is [d] objects later. *)
Definition shift (d : nat) (a : addr) : addr :=
  if decide (a < 2) then a else a + d.

Definition shift_class (d : nat) (k : State_class) : State_class :=
  match k with
  | StarState t => StarState (t + d)
  | PlusState t => PlusState (t + d)
  | _ => k
  end.

(** The loop variables of the two constructions agree from the shared atom
    on. *)
Record aligned (d : nat) (fr1 fr2 : frame) : Prop := {
  al_size : size fr1 = size fr2 + d;
  al_tmp : exists t, tmp_next_state fr2 = Some t /\
                     tmp_next_state fr1 = Some (t + d);
  al_classes : forall a, 2 <= a ->
    classes (f_store fr1) !! (a + d)
    = shift_class d <$> classes (f_store fr2) !! a;
  al_nexts : forall u, 2 <= u ->
    nexts (f_store fr1) (u + d) = (fun v => v + d) <$> nexts (f_store fr2) u
}.

(** The two finished automata agree up to [shift]. *)
Record similar (d : nat) (fsm1 fsm2 : RegexFSM) : Prop := {
  sim_length : length (store fsm1) = length (store fsm2) + d;
  sim_classes : forall a, a < length (store fsm2) ->
    classes (store fsm1) !! shift d a
    = shift_class d <$> classes (store fsm2) !! a;
  sim_nexts : forall a, a < length (store fsm2) ->
    nexts (store fsm1) (shift d a) = shift d <$> nexts (store fsm2) a
}.

(** * Proofs *)

(** * Views of the store

    Every property below looks at the store through two projections: the
    classes of the objects, which never change once an object exists, and
    the successor list of each address. *)

Lemma classes_length h : length (classes h) = length h.
Proof. unfold classes. by rewrite length_fmap. Qed.

Lemma classes_lookup h a : classes h !! a = class <$> h !! a.
Proof. unfold classes. by rewrite list_lookup_fmap. Qed.

Lemma lookup_view h a st :
  h !! a = Some st -> classes h !! a = Some (class st) /\ nexts h a = next_states st.
Proof. intros H. rewrite classes_lookup. unfold nexts. by rewrite H. Qed.

Lemma view_lookup h a c :
  classes h !! a = Some c -> h !! a = Some (mkState c (nexts h a)).
Proof.
  rewrite classes_lookup. unfold nexts.
  destruct (h !! a) as [[c' ns]|]; simpl; [|done].
  by intros [= ->].
Qed.

Lemma deref_view h a c :
  classes h !! a = Some c -> deref h a = Ok (mkState c (nexts h a)).
Proof. intros H. unfold deref. by rewrite (view_lookup _ _ _ H). Qed.

Lemma nexts_ge h a : length h <= a -> nexts h a = [].
Proof. intros H. unfold nexts. by rewrite lookup_ge_None_2. Qed.

Lemma classes_alloc h c : classes (alloc h c).1 = classes h ++ [c].
Proof. unfold classes, alloc. simpl. by rewrite fmap_app. Qed.

Lemma nexts_alloc h c a : nexts (alloc h c).1 a = nexts h a.
Proof.
  unfold nexts, alloc. simpl.
  destruct (decide (a < length h)) as [Hlt|Hge].
  - by rewrite lookup_app_l.
  - rewrite lookup_app_r by lia. rewrite (lookup_ge_None_2 h) by lia.
    by destruct (a - length h) as [|n].
Qed.

Lemma bind_Ok {A B} (m : result A) (k : A -> result B) b :
  m ≫= k = Ok b -> exists a, m = Ok a /\ k a = Ok b.
Proof. destruct m; simpl; [eauto | done]. Qed.

(** Rewriting the object at an allocated address. *)
Lemma store_insert_view h a st st' :
  h !! a = Some st -> class st' = class st ->
  classes (<[a := st']> h) = classes h /\
  length (<[a := st']> h) = length h /\
  (forall u, nexts (<[a := st']> h) u
             = if decide (u = a) then next_states st' else nexts h u).
Proof.
  intros Ha Hc. pose proof (lookup_lt_Some _ _ _ Ha) as Hlt.
  split; [|split].
  - unfold classes. rewrite list_fmap_insert, Hc.
    apply list_insert_id. rewrite list_lookup_fmap. by rewrite Ha.
  - by rewrite length_insert.
  - intros u. unfold nexts. destruct (decide (u = a)) as [->|Hne].
    + by rewrite list_lookup_insert_eq.
    + by rewrite list_lookup_insert_ne.
Qed.

Lemma append_next_spec a x h :
  a < length h ->
  exists h', append_next a x h = Ok h' /\
    classes h' = classes h /\ length h' = length h /\
    (forall u, nexts h' u = if decide (u = a) then nexts h a ++ [x] else nexts h u).
Proof.
  intros Hlt. destruct (lookup_lt_is_Some_2 h a Hlt) as [st Hst].
  unfold append_next, deref. rewrite Hst. simpl. eexists; split; [done|].
  destruct (store_insert_view h a st (mkState (class st) (next_states st ++ [x])) Hst eq_refl)
    as (Hc & Hl & Hn).
  split; [done|]. split; [done|]. intros u. rewrite Hn. simpl.
  by rewrite (proj2 (lookup_view _ _ _ Hst)).
Qed.

Lemma set_last_next_spec a x h :
  a < length h -> nexts h a <> [] ->
  exists h', set_last_next a x h = Ok h' /\
    classes h' = classes h /\ length h' = length h /\
    (forall u, nexts h' u
               = if decide (u = a)
                 then <[pred (length (nexts h a)) := x]> (nexts h a)
                 else nexts h u).
Proof.
  intros Hlt Hne. destruct (lookup_lt_is_Some_2 h a Hlt) as [st Hst].
  pose proof (proj2 (lookup_view _ _ _ Hst)) as Hn. rewrite Hn in *.
  unfold set_last_next, deref. rewrite Hst. simpl.
  destruct (next_states st) as [|n ns] eqn:E; [done|].
  eexists; split; [done|].
  destruct (store_insert_view h a st
              (mkState (class st) (<[pred (length (n :: ns)) := x]> (n :: ns))) Hst eq_refl)
    as (Hc & Hl & Hn').
  split; [done|]. split; [done|]. intros u. by rewrite Hn'.
Qed.

(** * The compiler, one iteration at a time *)

Lemma step_size fr c fr' : step fr c fr' -> size fr' = S (size fr).
Proof.
  unfold size. intros [k _ _ _ Hc _ _ _|t _ _ Hc _ _ _|t _ _ Hc _ _ _];
    apply (f_equal length) in Hc;
    rewrite length_app, !classes_length in Hc; simpl in Hc; lia.
Qed.

Lemma init_next_state_isascii c k : init_next_state c = Ok k -> isascii c = true.
Proof.
  unfold init_next_state. destruct (N.eqb_spec c DOT) as [->|_]; [done|].
  by destruct (isascii c).
Qed.

Lemma loop_body_spec fr c :
  frame_ok fr ->
  match loop_body fr c with
  | Ok fr' => step fr c fr'
  | Raise e =>
      (e = LeadingQuantifier c /\ quantifier c /\ tmp_next_state fr = None) \/
      (e = UnsupportedToken c /\ ~ quantifier c /\ isascii c = false)
  end.
Proof.
  intros [Hsz Htmp Hst]. unfold size in *. unfold loop_body.
  destruct (N.eqb_spec c STAR) as [HcS|HcS];
    [|destruct (N.eqb_spec c PLUS) as [HcP|HcP]].
  - (* '*' *)
    destruct (tmp_next_state fr) as [t|] eqn:Et;
      [|left; unfold quantifier; auto].
    destruct (Htmp t eq_refl) as [Ht2 Htl]. cbv zeta beta iota.
    change (alloc (f_store fr) (StarState t))
      with ((alloc (f_store fr) (StarState t)).1, length (f_store fr)).
    cbv iota beta.
    set (h1 := (alloc (f_store fr) (StarState t)).1).
    assert (Hl1 : length h1 = S (length (f_store fr))).
    { unfold h1, alloc. simpl. rewrite length_app. simpl. lia. }
    destruct (set_last_next_spec prev_state (length (f_store fr)) h1)
      as (h2 & -> & Hc2 & Hl2 & Hn2).
    { unfold prev_state, START. lia. }
    { unfold h1. by rewrite nexts_alloc. }
    simpl.
    destruct (append_next_spec (length (f_store fr)) t h2)
      as (h3 & -> & Hc3 & Hl3 & Hn3); [lia|]. simpl.
    destruct (append_next_spec (length (f_store fr)) (length (f_store fr)) h3)
      as (h4 & -> & Hc4 & Hl4 & Hn4); [lia|]. simpl.
    eapply (step_star _ _ _ t); simpl; try done.
    + rewrite Hc4, Hc3, Hc2. apply classes_alloc.
    + intros u. rewrite Hn4. unfold size.
      destruct (decide (u = length (f_store fr))) as [->|Hu].
      * rewrite Hn3, decide_True by done. rewrite Hn2.
        rewrite decide_False by (unfold prev_state, START; lia).
        unfold h1. rewrite nexts_alloc, nexts_ge by lia. done.
      * rewrite Hn3, decide_False by done. rewrite Hn2.
        unfold prev_state, h1. rewrite !nexts_alloc. done.
  - (* '+' *)
    destruct (tmp_next_state fr) as [t|] eqn:Et;
      [|left; unfold quantifier; auto].
    destruct (Htmp t eq_refl) as [Ht2 Htl]. cbv zeta beta iota.
    change (alloc (f_store fr) (PlusState t))
      with ((alloc (f_store fr) (PlusState t)).1, length (f_store fr)).
    cbv iota beta.
    set (h1 := (alloc (f_store fr) (PlusState t)).1).
    assert (Hl1 : length h1 = S (length (f_store fr))).
    { unfold h1, alloc. simpl. rewrite length_app. simpl. lia. }
    destruct (set_last_next_spec prev_state (length (f_store fr)) h1)
      as (h2 & -> & Hc2 & Hl2 & Hn2).
    { unfold prev_state, START. lia. }
    { unfold h1. by rewrite nexts_alloc. }
    simpl.
    destruct (append_next_spec (length (f_store fr)) t h2)
      as (h3 & -> & Hc3 & Hl3 & Hn3); [lia|]. simpl.
    destruct (append_next_spec t t h3)
      as (h4 & -> & Hc4 & Hl4 & Hn4); [lia|]. simpl.
    eapply (step_plus _ _ _ t); simpl; try done.
    + rewrite Hc4, Hc3, Hc2. apply classes_alloc.
    + intros u. rewrite Hn4. unfold size.
      destruct (decide (u = t)) as [->|Hu].
      { rewrite Hn3. rewrite (decide_False (P := t = length (f_store fr))) by lia.
        rewrite Hn2.
        rewrite decide_False by (unfold prev_state, START; lia).
        unfold h1. by rewrite nexts_alloc. }
      rewrite Hn3.
      destruct (decide (u = length (f_store fr))) as [->|Hu'].
      * rewrite Hn2, decide_False by (unfold prev_state, START; lia).
        unfold h1. rewrite nexts_alloc, nexts_ge by lia. done.
      * rewrite Hn2. unfold prev_state, h1. rewrite !nexts_alloc. done.
  - (* an atom *)
    destruct (init_next_state c) as [k|e] eqn:Ek; simpl.
    2:{ right. unfold init_next_state in Ek.
        destruct (c =? DOT)%N; [done|]. destruct (isascii c) eqn:Ea; [done|].
        injection Ek as <-. unfold quantifier. split; [done|]. split; [tauto|done]. }
    change (f_store fr ++ [{| class := k; next_states := [] |}])
      with (alloc (f_store fr) k).1.
    set (h1 := (alloc (f_store fr) k).1).
    assert (Hl1 : length h1 = S (length (f_store fr))).
    { unfold h1, alloc. simpl. rewrite length_app. simpl. lia. }
    assert (Ha : anchor fr < length h1).
    { unfold anchor. destruct (tmp_next_state fr) as [t|]; simpl.
      - specialize (Htmp t eq_refl). lia.
      - unfold prev_state, START. lia. }
    destruct (append_next_spec (anchor fr) (length (f_store fr)) h1 Ha)
      as (h2 & Hh2 & Hc2 & Hl2 & Hn2).
    assert (Hb : match tmp_next_state fr with
                 | Some tmp => append_next tmp (length (f_store fr)) h1
                 | None => append_next prev_state (length (f_store fr)) h1
                 end = Ok h2).
    { rewrite <- Hh2. unfold anchor. by destruct (tmp_next_state fr). }
    rewrite Hb. simpl.
    eapply (step_atom _ _ _ k); simpl; try done.
    + rewrite Hc2. apply classes_alloc.
    + intros u. rewrite Hn2. unfold h1. rewrite !nexts_alloc. unfold size.
      by destruct (decide (u = anchor fr)) as [->|].
Qed.

Lemma step_frame_ok fr c fr' : frame_ok fr -> step fr c fr' -> frame_ok fr'.
Proof.
  intros [Hsz Htmp Hst] Hs. pose proof (step_size _ _ _ Hs) as Hsize.
  destruct Hs as [k _ _ _ _ Hn _ Ht|t _ Et _ Hn _ Ht|t _ Et _ Hn _ Ht].
  - split; [lia| |].
    + intros t'. rewrite Ht. intros [= <-]. lia.
    + rewrite Ht, Hn.
      destruct (tmp_next_state fr) as [t|] eqn:Et.
      * assert (anchor fr = t) as -> by (unfold anchor; by rewrite Et).
        specialize (Htmp t eq_refl). unfold START in *.
        by rewrite decide_False by lia.
      * assert (anchor fr = START) as -> by (unfold anchor; by rewrite Et).
        rewrite decide_True by done. by destruct (nexts (f_store fr) START).
  - rewrite Et in Hst. split; [lia| |].
    + intros t'. rewrite Ht. intros [= <-]. lia.
    + rewrite Ht, Hn. unfold START in *. rewrite decide_False by lia.
      rewrite decide_True by done. intros E. apply Hst.
      apply (f_equal length) in E. rewrite length_insert in E.
      by apply nil_length_inv.
  - rewrite Et in Hst. specialize (Htmp t Et). split; [lia| |].
    + intros t'. rewrite Ht. intros [= <-]. lia.
    + rewrite Ht, Hn. unfold START in *. rewrite !decide_False by lia.
      rewrite decide_True by done. intros E. apply Hst.
      apply (f_equal length) in E. rewrite length_insert in E.
      by apply nil_length_inv.
Qed.

(** * The loop as a whole *)

Lemma frame0_ok : frame_ok frame0.
Proof. split; [done | by intros t [=] | done]. Qed.

Lemma not_leading_snoc p c :
  p <> [] -> ~ leading_quantifier p -> ~ leading_quantifier (p ++ [c]).
Proof.
  intros Hp Hn (q & rest & E & Hq). apply Hn.
  destruct p as [|x p']; [done|]. simpl in E. injection E as -> _.
  by exists q, p'.
Qed.

Lemma built_facts p fr :
  built p fr ->
  frame_ok fr /\ size fr = 2 + length p /\
  f_states fr = START :: seq 2 (length p) /\
  Forall (fun c => isascii c = true) p /\
  (tmp_next_state fr = None <-> p = []) /\
  ~ leading_quantifier p.
Proof.
  induction 1 as [|p c fr fr' Hb (Hok & Hsz & Hst & Hasc & Htmp & Hlead) Hs].
  - split; [apply frame0_ok|]. repeat split; try done.
    by intros (q & rest & [=] & _).
  - split; [by eapply step_frame_ok|].
    split; [rewrite (step_size _ _ _ Hs), Hsz, length_app; simpl; lia|].
    split.
    { rewrite length_app. simpl. rewrite Nat.add_1_r, seq_S.
      destruct Hs as [k _ _ _ _ _ -> _|t _ _ _ _ -> _|t _ _ _ _ -> _];
        by rewrite Hst, Hsz. }
    split.
    { apply Forall_app. split; [done|]. apply Forall_singleton.
      destruct Hs as [k _ _ Hk _ _ _ _|t -> _ _ _ _ _|t -> _ _ _ _ _];
        [by eapply init_next_state_isascii|done|done]. }
    split.
    { split; [|by destruct p].
      destruct Hs as [k _ _ _ _ _ _ ->|t _ _ _ _ _ ->|t _ _ _ _ _ ->]; done. }
    destruct p as [|x p'].
    + intros (q & rest & E & Hq). simpl in E. injection E as -> _.
      destruct Hs as [k HS HP _ _ _ _ _|t _ Et _ _ _ _|t _ Et _ _ _ _].
      * by destruct Hq.
      * by rewrite (proj2 Htmp eq_refl) in Et.
      * by rewrite (proj2 Htmp eq_refl) in Et.
    + by apply not_leading_snoc.
Qed.

Lemma built_ok p fr : built p fr -> frame_ok fr.
Proof. intros H. apply (built_facts _ _ H). Qed.

Lemma loop_snoc fr p c :
  loop fr (p ++ [c]) = loop fr p ≫= fun fr' => loop_body fr' c.
Proof.
  revert fr. induction p as [|x p IH]; intros fr; simpl.
  - by destruct (loop_body fr c).
  - destruct (loop_body fr x) as [fr1|e]; simpl; [apply IH | done].
Qed.

(** The outcome of the loop: it either reads the whole pattern, or stops at
    a leading quantifier, or stops at the first character that is not
    ASCII. *)
Lemma loop_result p :
  match loop frame0 p with
  | Ok fr => built p fr
  | Raise e =>
      (exists q rest, p = q :: rest /\ quantifier q /\ e = LeadingQuantifier q) \/
      (exists pre t post, p = pre ++ t :: post /\ e = UnsupportedToken t /\
         isascii t = false /\ Forall (fun c => isascii c = true) pre /\
         ~ leading_quantifier p)
  end.
Proof.
  induction p as [|c p IH] using rev_ind; [apply built_nil|].
  rewrite loop_snoc. destruct (loop frame0 p) as [fr1|e]; simpl.
  - destruct (built_facts _ _ IH) as (Hok & _ & _ & Hasc & Htmp & Hlead).
    pose proof (loop_body_spec fr1 c Hok) as Hb.
    destruct (loop_body fr1 c) as [fr'|e]; [by eapply built_snoc|].
    destruct Hb as [(-> & Hq & Ht)|(-> & Hq & Ha)].
    + left. apply Htmp in Ht as ->. by exists c, [].
    + right. exists p, c, []. repeat split; try done.
      destruct p as [|x p']; [|by apply not_leading_snoc].
      intros (q & rest & E & Hq'). simpl in E. by injection E as -> _.
  - destruct IH as [(q & rest & -> & Hq & ->)|(pre & t & post & -> & -> & Ha & Hpre & Hl)].
    + left. by exists q, (rest ++ [c]).
    + right. exists pre, t, (post ++ [c]).
      split; [by rewrite <- app_assoc|]. repeat split; try done.
      apply not_leading_snoc; [by destruct pre | done].
Qed.

Lemma finish_spec fr :
  frame_ok fr ->
  exists h, finish fr = Ok (mkFSM h START TERMINAL (f_states fr)) /\
    classes h = classes (f_store fr) /\ length h = size fr /\
    (forall u, nexts h u
               = if decide (u = anchor fr)
                 then nexts (f_store fr) u ++ [TERMINAL]
                 else nexts (f_store fr) u).
Proof.
  intros [Hsz Htmp Hst]. unfold size in *.
  assert (Ha : anchor fr < length (f_store fr)).
  { unfold anchor. destruct (tmp_next_state fr) as [t|]; simpl.
    - specialize (Htmp t eq_refl). lia.
    - unfold prev_state, START. lia. }
  destruct (append_next_spec (anchor fr) TERMINAL (f_store fr) Ha)
    as (h & Hh & Hc & Hl & Hn).
  exists h. split.
  - unfold finish.
    assert (match tmp_next_state fr with
            | Some tmp => append_next tmp TERMINAL (f_store fr)
            | None => append_next START TERMINAL (f_store fr)
            end = Ok h) as ->; [|done].
    rewrite <- Hh. unfold anchor. by destruct (tmp_next_state fr).
  - repeat split; try done. intros u. rewrite Hn.
    by destruct (decide (u = anchor fr)) as [->|].
Qed.

Lemma compiled_inv p fsm :
  compiled p fsm -> exists fr, built p fr /\ finish fr = Ok fsm.
Proof.
  unfold compiled, RegexFSM_init. intros H.
  apply bind_Ok in H as (fr & Hl & Hf). exists fr. split; [|done].
  pose proof (loop_result p) as Hr. by rewrite Hl in Hr.
Qed.

Lemma init_result p :
  match RegexFSM_init p with
  | Ok fsm => exists fr, built p fr /\ finish fr = Ok fsm
  | Raise e =>
      (exists q rest, p = q :: rest /\ quantifier q /\ e = LeadingQuantifier q) \/
      (exists pre t post, p = pre ++ t :: post /\ e = UnsupportedToken t /\
         isascii t = false /\ Forall (fun c => isascii c = true) pre /\
         ~ leading_quantifier p)
  end.
Proof.
  pose proof (loop_result p) as Hr. unfold RegexFSM_init.
  destruct (loop frame0 p) as [fr|e]; simpl; [|done].
  destruct (finish_spec fr (built_ok _ _ Hr)) as (h & Hh & _).
  rewrite Hh. by exists fr.
Qed.

Lemma compiled_view p fsm :
  compiled p fsm ->
  exists fr, built p fr /\
    start_state fsm = START /\ terminal_state fsm = TERMINAL /\
    states fsm = f_states fr /\
    classes (store fsm) = classes (f_store fr) /\
    length (store fsm) = size fr /\
    (forall u, nexts (store fsm) u
               = if decide (u = anchor fr)
                 then nexts (f_store fr) u ++ [TERMINAL]
                 else nexts (f_store fr) u).
Proof.
  intros H. apply compiled_inv in H as (fr & Hb & Hf).
  destruct (finish_spec fr (built_ok _ _ Hb)) as (h & Hh & Hc & Hl & Hn).
  rewrite Hh in Hf. injection Hf as <-. by exists fr.
Qed.

(** ** The classes of the objects *)

Lemma built_classes p fr : built p fr -> classes_shape p (classes (f_store fr)).
Proof.
  induction 1 as [|p c fr fr' Hb (H0 & H1 & Hi) Hs].
  - by repeat split.
  - destruct (built_facts _ _ Hb) as (Hok & Hsz & _).
    assert (Hlen : length (classes (f_store fr)) = 2 + length p)
      by (by rewrite classes_length).
    assert (exists k, classes (f_store fr') = classes (f_store fr) ++ [k] /\
                      token_class (2 + length p) c k) as (k & Hc & Hk).
    { destruct Hs as [k HS HP Hk Hc _ _ _|t -> Et Hc _ _ _|t -> Et Hc _ _ _].
      - exists k. split; [done|]. unfold token_class.
        by rewrite !decide_False by done.
      - eexists. split; [done|]. unfold token_class.
        rewrite decide_True by done. exists t. split; [done|].
        rewrite <- Hsz. by apply (ok_tmp _ Hok).
      - eexists. split; [done|]. unfold token_class.
        rewrite decide_False by done. rewrite decide_True by done.
        exists t. split; [done|]. rewrite <- Hsz. by apply (ok_tmp _ Hok). }
    rewrite Hc. unfold classes_shape, START, TERMINAL in *.
    split; [rewrite lookup_app_l by lia; done|].
    split; [rewrite lookup_app_l by lia; done|].
    intros i c' Hic. destruct (decide (i < length p)) as [Hlt|Hge].
    + rewrite lookup_app_l in Hic by done.
      destruct (Hi i c' Hic) as (k' & Hk' & Htk). exists k'.
      split; [|done]. by rewrite lookup_app_l by lia.
    + pose proof (lookup_lt_Some _ _ _ Hic) as Hlt.
      rewrite length_app in Hlt. simpl in Hlt.
      assert (i = length p) as -> by lia.
      rewrite list_lookup_middle in Hic by done. injection Hic as <-.
      exists k. split; [|done]. by rewrite list_lookup_middle by lia.
Qed.

Lemma eqb_bool_decide (c d : char) : (c =? d)%N = bool_decide (c = d).
Proof.
  destruct (N.eqb_spec c d).
  - by rewrite bool_decide_eq_true_2.
  - by rewrite bool_decide_eq_false_2.
Qed.

(** The recursion limit leaves room for a Repeat and the state it wraps. *)
Lemma budget_ge4 : 4 <= check_self_budget.
Proof. vm_compute. lia. Qed.

Lemma budget_ge2 : 2 <= check_self_budget.
Proof. pose proof budget_ge4. lia. Qed.

(** One frame of [check_self], by the class of the object. *)
Lemma check_self_rec_class d h a k c :
  classes h !! a = Some k ->
  check_self_rec (S d) h a c
  = match k with
    | StartState => Ok true
    | TerminationState => Ok false
    | DotState => Ok true
    | AsciiState curr_sym => Ok (c =? curr_sym)%N
    | StarState t => check_self_rec d h t c
    | PlusState t => check_self_rec d h t c
    end.
Proof. intros H. simpl. rewrite (deref_view _ _ _ H). by destruct k. Qed.

Lemma check_self_class h a k c :
  classes h !! a = Some k ->
  check_self h a c
  = match k with
    | StartState => Ok true
    | TerminationState => Ok false
    | DotState => Ok true
    | AsciiState curr_sym => Ok (c =? curr_sym)%N
    | StarState t => check_self_rec (pred check_self_budget) h t c
    | PlusState t => check_self_rec (pred check_self_budget) h t c
    end.
Proof.
  intros H. unfold check_self. pose proof budget_ge2 as Hb.
  destruct check_self_budget as [|d] eqn:Ed; [lia|].
  by apply check_self_rec_class.
Qed.

Lemma check_self_ascii h a sym c :
  classes h !! a = Some (AsciiState sym) ->
  check_self h a c = Ok (bool_decide (c = sym)).
Proof.
  intros H. rewrite (check_self_class _ _ _ _ H). by rewrite eqb_bool_decide.
Qed.

Lemma check_self_dot h a c :
  classes h !! a = Some DotState -> check_self h a c = Ok true.
Proof. intros H. by rewrite (check_self_class _ _ _ _ H). Qed.

Lemma check_self_terminal h a c :
  classes h !! a = Some TerminationState -> check_self h a c = Ok false.
Proof. intros H. by rewrite (check_self_class _ _ _ _ H). Qed.

(** C10: every ASCII character other than [.], [*] and [+] compiles to a
    literal state: [__init_next_state] returns an AsciiState holding the
    character, a pattern made of it compiles, and in every compiled
    automaton the state created for such a token accepts, by [check_self],
    that character and no other.  The characters [?], [(], [|] and the
    space are instances. *)
Theorem ascii_compiles_to_literal (token : char) :
  isascii token = true -> token <> DOT -> token <> STAR -> token <> PLUS ->
  init_next_state token = Ok (AsciiState token) /\
  (exists fsm, compiled [token] fsm) /\
  forall p fsm i,
    compiled p fsm -> p !! i = Some token ->
    exists a st,
      states fsm !! (S i) = Some a /\
      store fsm !! a = Some st /\
      class st = AsciiState token /\
      forall c, check_self (store fsm) a c = Ok (bool_decide (c = token)).
Proof.
  intros Ha Hd Hs Hp.
  assert (Hk : init_next_state token = Ok (AsciiState token)).
  { unfold init_next_state. destruct (N.eqb_spec token DOT); [done|].
    by rewrite Ha. }
  split; [done|]. split.
  { pose proof (init_result [token]) as Hr. unfold compiled.
    destruct (RegexFSM_init [token]) as [fsm|e]; [by exists fsm|].
    destruct Hr as [(q & rest & [= <- _] & [Hq|Hq] & _)|(pre & t & post & E & _ & Ht & Hpre & _)];
      [done|done|].
    destruct pre as [|x pre].
    - injection E as <- _. congruence.
    - injection E as _ E. by destruct pre. }
  intros p fsm i Hc Hi.
  destruct (compiled_view _ _ Hc) as (fr & Hb & _ & _ & Hst & Hcl & _).
  destruct (built_facts _ _ Hb) as (_ & _ & Hsts & _).
  destruct (built_classes _ _ Hb) as (_ & _ & Hshape).
  destruct (Hshape i token Hi) as (k & Hk1 & Hk2).
  unfold token_class in Hk2. rewrite !decide_False in Hk2 by done.
  rewrite Hk in Hk2. injection Hk2 as <-.
  rewrite <- Hcl in Hk1.
  exists (2 + i), (mkState (AsciiState token) (nexts (store fsm) (2 + i))).
  split.
  { rewrite Hst, Hsts. simpl. rewrite lookup_seq_lt; [done|].
    by eapply lookup_lt_Some. }
  split; [by apply view_lookup|]. split; [done|].
  intros c. by apply check_self_ascii.
Qed.

Lemma ascii_compiles_to_literal_witness :
  init_next_state 63%N = Ok (AsciiState 63%N) /\
  (exists fsm, compiled [63%N] fsm) /\
  forall p fsm i,
    compiled p fsm -> p !! i = Some 63%N ->
    exists a st,
      states fsm !! (S i) = Some a /\
      store fsm !! a = Some st /\
      class st = AsciiState 63%N /\
      forall c, check_self (store fsm) a c = Ok (bool_decide (c = 63%N)).
Proof.
  apply (ascii_compiles_to_literal 63%N); [reflexivity|discriminate..].
Defined.

(** * Running the matcher *)

Lemma check_loop_mono fuel fuel' fsm s q r :
  check_loop fuel fsm s q = Some r -> fuel <= fuel' ->
  check_loop fuel' fsm s q = Some r.
Proof.
  revert fuel' q. induction fuel as [|fuel IH]; intros fuel' q H Hle; [done|].
  destruct fuel' as [|fuel']; [lia|]. simpl in *.
  destruct q as [|[state pos] rest]; [done|].
  destruct (deref (store fsm) state) as [st|e]; [|done].
  destruct (pos =? length s).
  - destruct (bool_decide _); [done|].
    destruct (star_to_terminal fsm (next_states st)) as [[|]|e]; try done.
    apply IH; [done|lia].
  - destruct (s !! pos) as [c|]; [|done].
    destruct (successors _ _ _ _) as [new|e]; [|done].
    apply IH; [done|lia].
Qed.

(** [check_string] has one answer. *)
Lemma returns_functional fsm s b b' :
  returns fsm s b -> returns fsm s b' -> b = b'.
Proof.
  intros [f H] [f' H']. unfold check_string in *.
  apply (check_loop_mono _ (f + f')) in H; [|lia].
  apply (check_loop_mono _ (f + f')) in H'; [|lia].
  congruence.
Qed.

(** C3: on the automaton of the sample pattern [a*4.+hi], [check_string]
    returns true for [aaaaaa4uhi] and for [4uhi] and false for [meow]. *)
Theorem sample_pattern :
  matches "a*4.+hi" "aaaaaa4uhi" true /\
  matches "a*4.+hi" "4uhi" true /\
  matches "a*4.+hi" "meow" false.
Proof. repeat split; run_matcher. Qed.

(** C6: on the automaton of [a*], [check_string] returns true for the empty
    string, for [a] and for [aaaa], and false for [b]. *)
Theorem zero_or_more :
  matches "a*" "" true /\
  matches "a*" "a" true /\
  matches "a*" "aaaa" true /\
  matches "a*" "b" false.
Proof. repeat split; run_matcher. Qed.

(** C2, evaluated on the code: on the automaton of [a+], [check_string]
    returns false for the empty string and for [b] and true for [aaa], as
    claimed, but it returns false for [a]: the PlusState consumes the first
    [a] and its only successor, the wrapped state, wants a second one. *)
Theorem one_or_more_rejects_single :
  matches "a+" "" false /\
  matches "a+" "a" false /\
  matches "a+" "aaa" true /\
  matches "a+" "b" false.
Proof. repeat split; run_matcher. Qed.

(** C1, evaluated on the code: on the automaton of [ab*c], [check_string]
    returns false for [ac], [abc] and [abbbc] and true for [bc]; it returns
    false for [ac d] and [xyz].  The quantifier has overwritten the last
    edge of the start state, [prev_state] being the start state throughout,
    so the start state leads to the StarState and the state of [a] is left
    behind. *)
Theorem quantifier_mid_pattern :
  matches "ab*c" "ac" false /\
  matches "ab*c" "abc" false /\
  matches "ab*c" "abbbc" false /\
  matches "ab*c" "ac d" false /\
  matches "ab*c" "bc" true /\
  matches "ab*c" "xyz" false /\
  exists fsm, compiled (str_of "ab*c") fsm /\
    nexts (store fsm) (start_state fsm) = [4] /\
    classes (store fsm) !! 4 = Some (StarState 3) /\
    classes (store fsm) !! 2 = Some (AsciiState 97%N).
Proof.
  repeat split; try run_matcher.
  eexists. split; [vm_compute; reflexivity|]. by vm_compute.
Qed.

(** C4, evaluated on the code: the pattern [ab*c] compiles, the state
    created for [a] (address 2) is one of the automaton's states, it is
    neither the start nor the terminal state, and no path of [next_states]
    edges leads from the start state to it. *)
Theorem disconnected_state :
  exists fsm, compiled (str_of "ab*c") fsm /\
    2 ∈ states fsm /\ 2 <> start_state fsm /\ 2 <> terminal_state fsm /\
    ~ reachable (store fsm) (start_state fsm) 2.
Proof.
  eexists. split; [vm_compute; reflexivity|]. simpl.
  split; [by repeat constructor|]. split; [done|]. split; [done|].
  match goal with |- ~ reachable ?h0 _ _ => set (h := h0) end.
  assert (Hinv : forall b, reachable h START b -> In b [0; 1; 3; 4; 5]).
  { induction 1 as [|b c _ IH Hc]; [simpl; tauto|].
    apply list_elem_of_In in Hc. simpl in IH.
    destruct IH as [<-|[<-|[<-|[<-|[<-|[]]]]]]; vm_compute in Hc; simpl; tauto. }
  intros H. apply Hinv in H. simpl in H.
  destruct H as [H|[H|[H|[H|[H|[]]]]]]; discriminate H.
Qed.

(** * Errors *)

Lemma deref_error h a e : deref h a = Raise e -> matcher_error e.
Proof.
  unfold deref, matcher_error. destruct (h !! a); [done|].
  intros [= <-]. auto.
Qed.

Lemma check_self_rec_error d h a c e :
  check_self_rec d h a c = Raise e -> matcher_error e.
Proof.
  revert a. induction d as [|d IH]; intros a; simpl.
  - intros [= <-]. unfold matcher_error. auto.
  - destruct (deref h a) as [st|e'] eqn:E; simpl.
    + destruct (class st); simpl; try done; apply IH.
    + intros [= <-]. by eapply deref_error.
Qed.

Lemma star_to_terminal_error fsm ns e :
  star_to_terminal fsm ns = Raise e -> matcher_error e.
Proof.
  induction ns as [|n ns IH]; simpl; [done|].
  destruct (deref (store fsm) n) as [st|e'] eqn:E; simpl.
  - by destruct (_ && _).
  - intros [= <-]. by eapply deref_error.
Qed.

Lemma successors_error h c pos ns e :
  successors h c pos ns = Raise e -> matcher_error e.
Proof.
  induction ns as [|n ns IH]; simpl; [done|].
  destruct (check_self h n c) as [b|e'] eqn:E1; simpl.
  2:{ intros [= <-]. by eapply check_self_rec_error. }
  destruct (deref h n) as [st|e'] eqn:E2; simpl.
  2:{ intros [= <-]. by eapply deref_error. }
  destruct (successors h c pos ns) as [more|e'] eqn:E3; simpl; [done|].
  intros [= <-]. by apply IH.
Qed.

Lemma check_loop_error fuel fsm s q e :
  check_loop fuel fsm s q = Some (Raise e) -> matcher_error e.
Proof.
  revert q. induction fuel as [|fuel IH]; intros q; simpl; [done|].
  destruct q as [|[state pos] rest]; [done|].
  destruct (deref (store fsm) state) as [st|e'] eqn:E.
  2:{ intros [= <-]. by eapply deref_error. }
  destruct (pos =? length s).
  - destruct (bool_decide _); [done|].
    destruct (star_to_terminal fsm (next_states st)) as [[|]|e'] eqn:E2;
      [done|apply IH|].
    intros [= <-]. by eapply star_to_terminal_error.
  - destruct (s !! pos) as [c|].
    2:{ intros [= <-]. unfold matcher_error. auto. }
    destruct (successors _ _ _ _) as [new|e'] eqn:E2; [apply IH|].
    intros [= <-]. by eapply successors_error.
Qed.

(** The first character that fails a test is determined by the string. *)
Lemma first_failure_unique {A} (P : A -> Prop) pre t post pre' t' post' :
  pre ++ t :: post = pre' ++ t' :: post' ->
  Forall P pre -> ~ P t -> Forall P pre' -> ~ P t' ->
  pre = pre' /\ t = t'.
Proof.
  revert pre'. induction pre as [|x pre IH]; intros pre' E Hp Ht Hp' Ht'.
  - destruct pre' as [|x' pre']; simpl in E.
    + by injection E as -> _.
    + injection E as -> _. by apply Forall_cons_1 in Hp' as [? _].
  - destruct pre' as [|x' pre']; simpl in E.
    + injection E as -> _. by apply Forall_cons_1 in Hp as [? _].
    + injection E as -> E. apply Forall_cons_1 in Hp as [_ Hp].
      apply Forall_cons_1 in Hp' as [_ Hp'].
      by destruct (IH pre' E Hp Ht Hp' Ht') as [-> ->].
Qed.

Lemma built_all_ascii p fr : built p fr -> Forall (fun c => isascii c = true) p.
Proof. intros H. apply (built_facts _ _ H). Qed.

(** C9, as the code has it: compilation fails with UnsupportedToken [t]
    exactly when the pattern does not begin with a quantifier and [t] is its
    first character that is not ASCII (so no ASCII character is ever
    reported); the matcher never produces this error. *)
Theorem unsupported_token_exactly (p : str) (t : char) :
  (RegexFSM_init p = Raise (UnsupportedToken t) <->
     ~ leading_quantifier p /\
     exists pre post, p = pre ++ t :: post /\
       Forall (fun c => isascii c = true) pre /\ isascii t = false) /\
  (forall fuel fsm s, check_string fuel fsm s <> Some (Raise (UnsupportedToken t))).
Proof.
  split.
  - pose proof (init_result p) as Hr. split.
    + intros E. rewrite E in Hr.
      destruct Hr as [(q & rest & _ & _ & [=])|(pre & t' & post & -> & [= <-] & Ht & Hpre & Hl)].
      split; [done|]. by exists pre, post.
    + intros (Hl & pre & post & -> & Hpre & Ht).
      destruct (RegexFSM_init (pre ++ t :: post)) as [fsm|e].
      * destruct Hr as (fr & Hb & _). apply built_all_ascii in Hb.
        apply Forall_app in Hb as [_ Hb]. apply Forall_cons_1 in Hb as [Hb _].
        congruence.
      * destruct Hr as [(q & rest & E & Hq & _)|(pre' & t' & post' & E & -> & Ht' & Hpre' & _)].
        { exfalso. apply Hl. by exists q, rest. }
        destruct (first_failure_unique (fun c => isascii c = true)
                    _ _ _ _ _ _ E Hpre ltac:(congruence) Hpre' ltac:(congruence))
          as [_ ->].
        done.
  - intros fuel fsm s E. apply check_loop_error in E.
    by destruct E as [|[|]].
Qed.

Lemma unsupported_token_exactly_witness :
  RegexFSM_init [97%N; 233%N; 42%N] = Raise (UnsupportedToken 233%N).
Proof.
  apply (unsupported_token_exactly [97%N; 233%N; 42%N] 233%N).
  split.
  - intros (q & rest & [= <- _] & [Hq|Hq]); discriminate Hq.
  - exists [97%N], [42%N]. split; [reflexivity|]. split; [|reflexivity].
    by repeat constructor.
Defined.

(** C9 as stated fails: the pattern [*é] contains a character that is not
    ASCII, and compilation fails with LeadingQuantifier, the quantifier
    being read first.  And no metacharacter is reserved: a pattern with
    [?], [(] and [|] compiles. *)
Lemma unsupported_token_after_leading_quantifier :
  (233%N ∈ [STAR; 233%N] /\ isascii 233%N = false /\
   RegexFSM_init [STAR; 233%N] = Raise (LeadingQuantifier STAR) /\
   ~ exists t, RegexFSM_init [STAR; 233%N] = Raise (UnsupportedToken t)) /\
  (exists fsm, compiled (str_of "a?(|") fsm).
Proof.
  split.
  - split; [by repeat constructor|]. split; [done|]. split; [done|].
    by intros [t [=]].
  - eexists. vm_compute. reflexivity.
Qed.

(** * One token inside a pattern *)

Lemma built_inv_snoc p c fr' :
  built (p ++ [c]) fr' -> exists fr, built p fr /\ step fr c fr'.
Proof.
  inversion 1 as [E|p0 c0 fr0 fr1 Hb Hs E]; [by destruct p|].
  apply app_inj_tail in E as [-> ->]. eauto.
Qed.

Lemma step_classes fr c fr' :
  step fr c fr' ->
  exists k, classes (f_store fr') = classes (f_store fr) ++ [k].
Proof. intros [k _ _ _ Hc _ _ _|t _ _ Hc _ _ _|t _ _ Hc _ _ _]; eauto. Qed.

Lemma built_app p1 p2 fr :
  built (p1 ++ p2) fr ->
  exists fr1, built p1 fr1 /\
    classes (f_store fr1) `prefix_of` classes (f_store fr).
Proof.
  revert fr. induction p2 as [|c p2 IH] using rev_ind; intros fr Hb.
  - rewrite app_nil_r in Hb. by exists fr.
  - rewrite app_assoc in Hb. apply built_inv_snoc in Hb as (fr0 & Hb & Hs).
    destruct (IH _ Hb) as (fr1 & Hb1 & Hpre). exists fr1. split; [done|].
    destruct (step_classes _ _ _ Hs) as (k & ->).
    by apply prefix_app_r.
Qed.

(** The iteration that reads the token at index [j]. *)
Lemma token_step p fr j c :
  built p fr -> p !! j = Some c ->
  exists fr1 fr2, built (take j p) fr1 /\ step fr1 c fr2 /\
    classes (f_store fr2) `prefix_of` classes (f_store fr).
Proof.
  intros Hb Hj.
  rewrite <- (take_drop (S j) p) in Hb.
  apply built_app in Hb as (fr2 & Hb2 & Hpre).
  rewrite (take_S_r _ _ _ Hj) in Hb2.
  apply built_inv_snoc in Hb2 as (fr1 & Hb1 & Hs). eauto.
Qed.

Lemma size_take p fr j : built (take j p) fr -> j <= length p -> size fr = 2 + j.
Proof.
  intros Hb Hj. destruct (built_facts _ _ Hb) as (_ & -> & _).
  rewrite length_take. lia.
Qed.

Lemma step_quantifier fr c fr' :
  step fr c fr' -> quantifier c ->
  exists t, tmp_next_state fr = Some t /\
    classes (f_store fr') !! size fr
      = Some (if decide (c = STAR) then StarState t else PlusState t) /\
    tmp_next_state fr' = Some (if decide (c = STAR) then size fr else t).
Proof.
  intros [k HS HP _ _ _ _ _|t -> Et Hc _ _ Ht|t -> Et Hc _ _ Ht] Hq.
  - by destruct Hq.
  - exists t. rewrite decide_True by done. split; [done|]. split; [|done].
    rewrite Hc. apply list_lookup_middle. by rewrite classes_length.
  - exists t. rewrite decide_False by done. split; [done|]. split; [|done].
    rewrite Hc. apply list_lookup_middle. by rewrite classes_length.
Qed.

Lemma compiles_iff p :
  (exists fsm, compiled p fsm) <->
  ~ leading_quantifier p /\ Forall (fun c => isascii c = true) p.
Proof.
  pose proof (init_result p) as Hr. unfold compiled. split.
  - intros [fsm E]. rewrite E in Hr. destruct Hr as (fr & Hb & _).
    split; apply (built_facts _ _ Hb).
  - intros [Hl Ha]. destruct (RegexFSM_init p) as [fsm|e]; [eauto|].
    destruct Hr as [(q & rest & -> & Hq & _)|(pre & t & post & -> & _ & Ht & _)].
    + exfalso. apply Hl. by exists q, rest.
    + apply Forall_app in Ha as [_ Ha]. apply Forall_cons_1 in Ha as [Ha _].
      congruence.
Qed.

(** C8, as the code has it: compilation fails with LeadingQuantifier
    exactly when a [*] or [+] has no preceding atom, that is, when it is
    the first character of the pattern; a
    pattern of ASCII characters that does not begin with a quantifier
    compiles, whatever quantifiers follow each other in it; and where a
    quantifier directly follows another, the new Repeat wraps the previous
    Repeat if that one is a [*], and wraps the state the previous Repeat
    wraps if that one is a [+]. *)
Theorem leading_quantifier_exactly (p : str) :
  (forall q, RegexFSM_init p = Raise (LeadingQuantifier q) <->
             exists rest, p = q :: rest /\ quantifier q) /\
  (~ leading_quantifier p -> Forall (fun c => isascii c = true) p ->
   exists fsm, compiled p fsm) /\
  (forall fsm i q1 q2,
     compiled p fsm ->
     p !! i = Some q1 -> p !! (S i) = Some q2 ->
     quantifier q1 -> quantifier q2 ->
     states fsm !! (S i) = Some (2 + i) /\
     states fsm !! (S (S i)) = Some (3 + i) /\
     is_Some (wrapped fsm (3 + i)) /\
     wrapped fsm (3 + i)
       = if decide (q1 = STAR) then Some (2 + i) else wrapped fsm (2 + i)).
Proof.
  split; [|split].
  - intros q. pose proof (init_result p) as Hr. split.
    + intros E. rewrite E in Hr.
      destruct Hr as [(q' & rest & -> & Hq & [= <-])|(pre & t & post & _ & [=] & _)].
      by exists rest.
    + intros (rest & -> & Hq).
      destruct (RegexFSM_init (q :: rest)) as [fsm|e].
      * destruct Hr as (fr & Hb & _). exfalso.
        apply (built_facts _ _ Hb). by exists q, rest.
      * destruct Hr as [(q' & rest' & [= <- <-] & _ & ->)|(pre & t & post & _ & _ & _ & _ & Hl)];
          [done|].
        exfalso. apply Hl. by exists q, rest.
  - intros Hl Ha. by apply compiles_iff.
  - intros fsm i q1 q2 Hc Hi Hi' Hq1 Hq2.
    destruct (compiled_view _ _ Hc) as (fr & Hb & _ & _ & Hst & Hcl & _).
    destruct (built_facts _ _ Hb) as (_ & _ & Hsts & _).
    pose proof (lookup_lt_Some _ _ _ Hi) as Hlt.
    pose proof (lookup_lt_Some _ _ _ Hi') as Hlt'.
    destruct (token_step _ _ _ _ Hb Hi') as (fr1' & fr2' & Hb1' & Hs' & Hpre').
    rewrite (take_S_r _ _ _ Hi) in Hb1'.
    pose proof Hb1' as Hb1''.
    apply built_inv_snoc in Hb1' as (fr1 & Hb1 & Hs).
    assert (Hsz1 : size fr1 = 2 + i) by (eapply size_take; [done|lia]).
    assert (Hsz1' : size fr1' = 3 + i).
    { rewrite (step_size _ _ _ Hs). lia. }
    destruct (step_quantifier _ _ _ Hs Hq1) as (t & Et & Hk & Et').
    destruct (step_quantifier _ _ _ Hs' Hq2) as (t' & Et'' & Hk' & _).
    rewrite Et' in Et''. injection Et'' as <-.
    rewrite Hsz1 in Hk. rewrite Hsz1' in Hk'.
    destruct (step_classes _ _ _ Hs') as (k' & Hc').
    assert (Hk1 : classes (f_store fr2') !! (2 + i)
                  = Some (if decide (q1 = STAR) then StarState t else PlusState t)).
    { rewrite Hc'. rewrite lookup_app_l; [done|]. by eapply lookup_lt_Some. }
    apply (prefix_lookup_Some _ _ _ _ Hk1) in Hpre' as Hf1.
    apply (prefix_lookup_Some _ _ _ _ Hk') in Hpre' as Hf2.
    unfold wrapped. rewrite Hcl, Hf1, Hf2, Hst, Hsts. simpl.
    split; [by rewrite lookup_seq_lt by lia|].
    split; [by rewrite lookup_seq_lt by lia|].
    rewrite Hsz1.
    destruct (decide (q1 = STAR)); destruct (decide (q2 = STAR)); simpl; eauto.
Qed.

Lemma leading_quantifier_exactly_witness :
  (exists fsm, compiled (str_of "a*+") fsm /\ wrapped fsm 4 = Some 3) /\
  RegexFSM_init (str_of "+x") = Raise (LeadingQuantifier PLUS) /\
  RegexFSM_init (str_of "*abc") = Raise (LeadingQuantifier STAR).
Proof.
  split; [|split].
  - destruct (proj1 (proj2 (leading_quantifier_exactly (str_of "a*+"))))
      as [fsm Hc].
    + intros (q & rest & [= <- _] & [Hq|Hq]); discriminate Hq.
    + by repeat constructor.
    + exists fsm. split; [exact Hc|].
      apply (proj2 (proj2 (leading_quantifier_exactly (str_of "a*+")))
               fsm 1 STAR PLUS Hc eq_refl eq_refl).
      * by left.
      * by right.
  - apply (proj1 (leading_quantifier_exactly (str_of "+x")) PLUS).
    exists (str_of "x"). split; [reflexivity|by right].
  - apply (proj1 (leading_quantifier_exactly (str_of "*abc")) STAR).
    exists (str_of "abc"). split; [reflexivity|by left].
Defined.

(** C8 as stated fails: in the pattern [a+*] the [*] directly follows the
    [+], which has a preceding atom; the pattern compiles, and the StarState
    wraps the state of [a] (address 2), not the PlusState (address 3). *)
Lemma star_after_plus_wraps_atom :
  exists fsm, compiled (str_of "a+*") fsm /\
    states fsm = [0; 2; 3; 4] /\
    classes (store fsm) !! 3 = Some (PlusState 2) /\
    classes (store fsm) !! 4 = Some (StarState 2) /\
    ~ wraps_previous fsm 1.
Proof.
  eexists. split; [vm_compute; reflexivity|].
  split; [done|]. split; [done|]. split; [done|].
  intros (prev & new & [= <-] & [= <-] & [=]).
Qed.

(** * Patterns without quantifiers *)

Lemma wild_eqb_spec p s : wild_eqb p s = true <-> wild_eq p s.
Proof.
  unfold wild_eq. revert s. induction p as [|t p IH]; intros [|c s]; simpl.
  - split; [|done]. intros _. split; [done|]. intros i t c. by rewrite lookup_nil.
  - split; [done|]. by intros [[=] _].
  - split; [done|]. by intros [[=] _].
  - rewrite andb_true_iff, orb_true_iff, !N.eqb_eq, IH. split.
    + intros [Htc [Hl Hi]]. split; [by rewrite Hl|].
      intros [|i] t' c'; simpl; [intros [= <-] [= <-]; done | apply Hi].
    + intros [Hl Hi]. split; [by apply (Hi 0 t c)|].
      split; [by injection Hl|]. intros i. apply (Hi (S i)).
Qed.

Lemma built_chain p fr :
  Forall (fun c => ~ quantifier c) p -> built p fr -> chain p fr.
Proof.
  intros Hq Hb. induction Hb as [|p c fr fr' Hb IH Hs].
  - split; [simpl; intros; lia|]. by repeat split.
  - apply Forall_app in Hq as [Hqp Hqc]. apply Forall_cons_1 in Hqc as [Hqc _].
    destruct (IH Hqp) as (Hi & H0 & H1 & Ht). clear IH.
    destruct (built_facts _ _ Hb) as (Hok & Hsz & _).
    destruct Hs as [k _ _ _ _ Hn _ Ht'|t -> _ _ _ _ _|t -> _ _ _ _ _];
      [|exfalso; apply Hqc; by left|exfalso; apply Hqc; by right].
    assert (Ha : anchor fr = if decide (p = []) then START else 1 + length p).
    { unfold anchor. rewrite Ht. by destruct (decide (p = [])). }
    assert (Hne : p ++ [c] <> []) by (by destruct p).
    unfold chain. rewrite length_app, Ht', Hsz. simpl.
    rewrite (decide_False (P := p ++ [c] = [])) by done.
    unfold START, TERMINAL in *.
    split; [|split; [|split]].
    + intros i Hlt. rewrite Hn, Ha, Hsz.
      destruct (decide (p = [])) as [->|Hp]; simpl in *.
      * assert (i = 0) as -> by lia. simpl.
        rewrite nexts_ge; [done|]. unfold size in Hsz. lia.
      * assert (0 < length p) by (destruct p; [done|simpl; lia]).
        destruct (decide (2 + i = 1 + length p)) as [E|E].
        -- rewrite decide_True by lia. rewrite Hi by lia.
           rewrite decide_False by lia. rewrite decide_True by lia.
           simpl. f_equal. lia.
        -- rewrite decide_False by lia.
           destruct (decide (i < length p)) as [Hl|Hl].
           ++ rewrite Hi by lia. rewrite decide_True by lia.
              rewrite decide_True by lia; done.
           ++ rewrite nexts_ge by (unfold size in Hsz; lia).
              rewrite decide_False by lia; done.
    + rewrite Hn, Ha, H0, Hsz.
      destruct (decide (p = [])) as [->|Hp]; simpl; [done|].
      try (rewrite decide_False by lia); done.
    + rewrite Hn, Ha, H1.
      destruct (decide (p = [])) as [->|Hp]; simpl; [done|].
      assert (0 < length p) by (destruct p; [done|simpl; lia]).
      rewrite decide_False by lia. done.
    + rewrite decide_False by done. f_equal. lia.
Qed.

Lemma chain_final p fsm pos :
  Forall (fun c => ~ quantifier c) p -> compiled p fsm -> pos <= length p ->
  nexts (store fsm) (addr_at pos)
  = [if decide (pos < length p) then 2 + pos else TERMINAL].
Proof.
  intros Hq Hc Hpos.
  destruct (compiled_view _ _ Hc) as (fr & Hb & _ & _ & _ & _ & _ & Hn).
  destruct (built_chain _ _ Hq Hb) as (Hi & H0 & H1 & Ht).
  assert (Ha : anchor fr = if decide (p = []) then START else 1 + length p).
  { unfold anchor. rewrite Ht. by destruct (decide (p = [])). }
  rewrite Hn, Ha. unfold addr_at, START, TERMINAL in *.
  destruct pos as [|pos].
  - rewrite H0. destruct (decide (p = [])) as [->|Hp]; simpl; [done|].
    assert (0 < length p) by (destruct p; [done|simpl; lia]).
    rewrite decide_True by lia. done.
  - destruct (decide (p = [])) as [->|Hp]; simpl in *; [lia|].
    rewrite !Hi by lia.
    destruct (decide (S pos < length p)) as [Hl|Hl].
    + rewrite decide_False by lia. done.
    + rewrite decide_True by lia. done.
Qed.

Lemma check_loop_cons fuel fsm s state pos rest :
  check_loop (S fuel) fsm s ((state, pos) :: rest) =
  match deref (store fsm) state with
  | Raise e => Some (Raise e)
  | Ok st =>
      if pos =? length s then
        if bool_decide (terminal_state fsm ∈ next_states st)
        then Some (Ok true)
        else
          match star_to_terminal fsm (next_states st) with
          | Raise e => Some (Raise e)
          | Ok true => Some (Ok true)
          | Ok false => check_loop fuel fsm s rest
          end
      else
        match s !! pos with
        | None => Some (Raise IndexError)
        | Some c =>
            match successors (store fsm) c pos (next_states st) with
            | Raise e => Some (Raise e)
            | Ok new => check_loop fuel fsm s (rest ++ new)
            end
        end
  end.
Proof. done. Qed.

Lemma atom_check_self h a t k c :
  init_next_state t = Ok k -> classes h !! a = Some k ->
  check_self h a c = Ok ((t =? DOT)%N || (c =? t)%N) /\
  forall st, class st = k -> is_StarState st = false.
Proof.
  unfold init_next_state. intros Hk Ha.
  destruct (N.eqb_spec t DOT) as [->|Hd].
  - injection Hk as <-. split; [by apply check_self_dot|].
    intros st E. unfold is_StarState. by rewrite E.
  - destruct (isascii t); [|done]. injection Hk as <-. split.
    + rewrite (check_self_ascii _ _ _ _ Ha). by rewrite eqb_bool_decide.
    + intros st E. unfold is_StarState. by rewrite E.
Qed.

Lemma chain_classes p fsm :
  Forall (fun c => ~ quantifier c) p -> compiled p fsm ->
  length (store fsm) = 2 + length p /\
  terminal_state fsm = TERMINAL /\ start_state fsm = START /\
  classes (store fsm) !! TERMINAL = Some TerminationState /\
  forall i t, p !! i = Some t ->
    exists k, classes (store fsm) !! (2 + i) = Some k /\ init_next_state t = Ok k.
Proof.
  intros Hq Hc.
  destruct (compiled_view _ _ Hc) as (fr & Hb & Hs & Ht & _ & Hcl & Hl & _).
  destruct (built_facts _ _ Hb) as (_ & Hsz & _).
  destruct (built_classes _ _ Hb) as (_ & H1 & Hi).
  rewrite Hcl. split; [lia|]. do 3 (split; [done|]).
  intros i t Hit. destruct (Hi i t Hit) as (k & Hk & Htk).
  exists k. split; [done|].
  pose proof (proj1 (Forall_lookup _ _) Hq i t Hit) as Hnq.
  unfold token_class, quantifier in *.
  rewrite !decide_False in Htk by tauto. done.
Qed.

Lemma chain_run p fsm s :
  Forall (fun c => ~ quantifier c) p -> compiled p fsm ->
  forall k pos fuel,
    length s - pos = k -> pos <= length s -> pos <= length p -> k + 2 <= fuel ->
    check_loop fuel fsm s [(addr_at pos, pos)]
    = Some (Ok (wild_eqb (drop pos p) (drop pos s))).
Proof.
  intros Hq Hc.
  destruct (chain_classes _ _ Hq Hc) as (Hlen & Hterm & _ & Hc1 & Hci).
  induction k as [|k IH]; intros pos fuel Hk Hps Hpp Hfuel.
  all: destruct fuel as [|fuel]; [lia|]; rewrite check_loop_cons.
  all: pose proof (chain_final p fsm pos Hq Hc Hpp) as Hn.
  all: assert (Hlt : addr_at pos < length (store fsm))
         by (unfold addr_at, START; destruct pos; lia).
  all: destruct (lookup_lt_is_Some_2 _ _ Hlt) as [st Hst].
  all: destruct (lookup_view _ _ _ Hst) as [_ Hnx];
    pose proof (eq_trans (eq_sym Hnx) Hn) as Hn'.
  all: unfold deref at 1; rewrite Hst, Hn', Hterm.
  - (* the input is used up *)
    assert (pos = length s) as Hpos by lia.
    subst pos. rewrite Nat.eqb_refl, drop_all.
    destruct (decide (length s < length p)) as [Hl|Hl].
    + destruct (lookup_lt_is_Some_2 p _ Hl) as [t Ht].
      rewrite (drop_S _ _ _ Ht). simpl wild_eqb.
      rewrite bool_decide_eq_false_2.
      2:{ intros Hin. apply list_elem_of_singleton in Hin. unfold TERMINAL in Hin. lia. }
      destruct (Hci _ t Ht) as (kc & Hkc & Hik). simpl in Hkc.
      simpl star_to_terminal. rewrite (deref_view _ _ _ Hkc). simpl.
      destruct (atom_check_self _ _ _ _ 0%N Hik Hkc) as [_ Hns].
      rewrite (Hns (mkState kc (nexts (store fsm) (S (S (length s))))) eq_refl). simpl.
      destruct fuel; [lia|done].
    + rewrite bool_decide_eq_true_2 by (by apply list_elem_of_singleton).
      rewrite drop_ge by lia. done.
  - (* one more character *)
    assert (pos < length s) as Hpos by lia.
    rewrite (proj2 (Nat.eqb_neq _ _)) by lia.
    destruct (lookup_lt_is_Some_2 s pos Hpos) as [c Hsc]. rewrite Hsc.
    rewrite (drop_S _ _ _ Hsc).
    destruct (decide (pos < length p)) as [Hl|Hl].
    + destruct (lookup_lt_is_Some_2 p pos Hl) as [t Ht].
      rewrite (drop_S _ _ _ Ht). simpl wild_eqb.
      destruct (Hci pos t Ht) as (kc & Hkc & Hik). simpl in Hkc.
      destruct (atom_check_self _ _ _ _ c Hik Hkc) as [Hcs Hns].
      simpl successors. simpl in Hcs. rewrite Hcs. simpl.
      rewrite (deref_view _ _ _ Hkc). simpl.
      rewrite (Hns (mkState kc (nexts (store fsm) (S (S pos)))) eq_refl). simpl.
      destruct ((t =? DOT)%N || (c =? t)%N); simpl.
      * replace (pos + 1) with (S pos) by lia.
        change (S (S pos)) with (addr_at (S pos)).
        apply IH; lia.
      * destruct fuel; [lia|done].
    + rewrite drop_ge by lia. simpl wild_eqb.
      simpl successors. rewrite (check_self_terminal _ _ _ Hc1). simpl.
      rewrite (deref_view _ _ _ Hc1). simpl.
      destruct fuel; [lia|done].
Qed.

(** C5: for a pattern without [*] and [+] (the empty pattern included) that
    compiles, and for every input, [check_string] returns, and it returns
    true exactly when the input has the length of the pattern and agrees
    with it at every position, a [.] in the pattern agreeing with any
    character. *)
Theorem quantifier_free_is_wildcard_equality (p : str) (fsm : RegexFSM) (s : str) :
  Forall (fun c => ~ quantifier c) p -> compiled p fsm ->
  exists b, returns fsm s b /\ (b = true <-> wild_eq p s).
Proof.
  intros Hq Hc. exists (wild_eqb p s). split; [|apply wild_eqb_spec].
  exists (length s + 2). unfold check_string.
  destruct (chain_classes _ _ Hq Hc) as (_ & _ & -> & _).
  apply (chain_run p fsm s Hq Hc (length s) 0); lia.
Qed.

Lemma quantifier_free_is_wildcard_equality_witness :
  exists fsm, compiled (str_of "a.c") fsm /\
    exists b, returns fsm (str_of "aXc") b /\
              (b = true <-> wild_eq (str_of "a.c") (str_of "aXc")).
Proof.
  eexists. split; [vm_compute; reflexivity|].
  apply quantifier_free_is_wildcard_equality.
  - repeat constructor; intros [H|H]; discriminate H.
  - vm_compute; reflexivity.
Defined.

(** * Well-formed automata *)

Lemma init_next_state_class c k :
  init_next_state c = Ok k -> k = DotState \/ k = AsciiState c.
Proof.
  unfold init_next_state. destruct (c =? DOT)%N; [intros [= <-]; auto|].
  destruct (isascii c); [intros [= <-]; auto|done].
Qed.

Lemma classes_shape_wf p cs :
  length cs = 2 + length p -> classes_shape p cs -> wf_classes cs.
Proof.
  intros Hl (H0 & H1 & Hi). split; [done|]. split; [done|].
  intros a k Ha Hk. pose proof (lookup_lt_Some _ _ _ Hk) as Hlt.
  destruct (lookup_lt_is_Some_2 p (a - 2)) as [c Hc]; [lia|].
  destruct (Hi _ _ Hc) as (k' & Hk' & Htk).
  replace (2 + (a - 2)) with a in * by lia.
  rewrite Hk in Hk'. injection Hk' as <-. unfold token_class in Htk.
  destruct (decide (c = STAR)); [by destruct Htk as (t & -> & ?)|].
  destruct (decide (c = PLUS)); [by destruct Htk as (t & -> & ?)|].
  by destruct (init_next_state_class _ _ Htk) as [-> | ->].
Qed.

Lemma built_wf_classes p fr : built p fr -> wf_classes (classes (f_store fr)).
Proof.
  intros Hb. apply (classes_shape_wf p); [|by apply built_classes].
  rewrite classes_length. apply (built_facts _ _ Hb).
Qed.

Lemma edge_ok_grow cs k u v : edge_ok cs u v -> edge_ok (cs ++ [k]) u v.
Proof.
  intros (Hv & Hv0 & Hu). split; [rewrite length_app; lia|]. split; [done|].
  destruct (cs !! u) as [ku|] eqn:Eu; [|done].
  rewrite (lookup_app_l_Some _ _ _ _ Eu).
  rewrite (lookup_app_l cs [k] v) by done. done.
Qed.

Lemma elem_of_insert_inv {A} (l : list A) i x y :
  y ∈ <[i := x]> l -> y = x \/ y ∈ l.
Proof.
  revert i. induction l as [|z l IH]; intros [|i]; simpl.
  - auto.
  - auto.
  - rewrite !elem_of_cons. tauto.
  - rewrite !elem_of_cons. intros [->|H]; [auto|].
    destruct (IH _ H); auto.
Qed.

Lemma edge_ok_start cs v :
  cs !! START = Some StartState -> v < length cs -> v <> START ->
  edge_ok cs START v.
Proof. intros H0 Hv Hv0. unfold edge_ok. by rewrite H0. Qed.

Lemma edge_ok_older cs u v t :
  cs !! u = Some (StarState t) \/ cs !! u = Some (PlusState t) ->
  v <= u -> v <> START -> edge_ok cs u v.
Proof.
  intros Hu Hv Hv0. unfold edge_ok.
  assert (u < length cs) by (destruct Hu as [Hu|Hu]; by eapply lookup_lt_Some).
  split; [lia|]. split; [done|].
  destruct Hu as [-> | ->]; auto.
Qed.

Lemma edge_ok_sink cs u v kv :
  wf_classes cs -> 2 <= u -> u < length cs ->
  cs !! v = Some kv -> is_sink_class kv = true -> v <> START ->
  edge_ok cs u v.
Proof.
  intros (_ & _ & Hw) Hu Hul Hv Hs Hv0. unfold edge_ok.
  split; [by eapply lookup_lt_Some|]. split; [done|].
  destruct (lookup_lt_is_Some_2 cs u Hul) as [ku Hku].
  specialize (Hw u ku Hu Hku). rewrite Hku.
  destruct ku; try done.
  - intros k. rewrite Hv. intros [= <-]. by destruct kv.
  - intros k. rewrite Hv. intros [= <-]. by destruct kv.
  - right. eauto.
  - right. eauto.
Qed.

Lemma edge_ok_self cs u :
  wf_classes cs -> 2 <= u -> u < length cs -> edge_ok cs u u.
Proof.
  intros (_ & _ & Hw) Hu Hul. unfold edge_ok, START.
  split; [done|]. split; [lia|].
  destruct (lookup_lt_is_Some_2 cs u Hul) as [ku Hku].
  specialize (Hw u ku Hu Hku). rewrite Hku.
  destruct ku; try done; auto.
  - by intros k [= <-].
  - by intros k [= <-].
Qed.

Lemma built_edges_ok p fr : built p fr -> edges_ok (f_store fr).
Proof.
  intros Hb. induction Hb as [|p c fr fr' Hb IH Hs].
  - intros u v. unfold nexts. simpl.
    destruct u as [|[|u]]; simpl; intros H; by apply elem_of_nil in H.
  - pose proof (built_wf_classes _ _ (built_snoc _ _ _ _ Hb Hs)) as Hwf.
    destruct (built_facts _ _ Hb) as (Hok & Hsz & _).
    pose proof (step_size _ _ _ Hs) as Hsz'.
    assert (Hlen : length (classes (f_store fr')) = S (size fr))
      by (by rewrite classes_length).
    assert (Hold : forall u v, v ∈ nexts (f_store fr) u ->
                               edge_ok (classes (f_store fr')) u v).
    { intros u v Hv. destruct (step_classes _ _ _ Hs) as (k & ->).
      by apply edge_ok_grow, IH. }
    assert (Hst : forall v, v < S (size fr) -> v <> START ->
                            edge_ok (classes (f_store fr')) START v).
    { intros v Hv Hv0. apply edge_ok_start; [apply Hwf|lia|done]. }
    assert (Hn0 : size fr <> START) by (unfold START; lia).
    intros u v Hv.
    destruct Hs as [k _ _ Hk Hc Hn _ _|t _ Et Hc Hn _ _|t _ Et Hc Hn _ _];
      rewrite Hn in Hv.
    + (* an atom *)
      destruct (decide (u = anchor fr)) as [->|Hu]; [|by apply Hold].
      apply elem_of_app in Hv as [Hv|Hv]; [by apply Hold|].
      apply list_elem_of_singleton in Hv as ->.
      unfold anchor. destruct (tmp_next_state fr) as [t|] eqn:Et; simpl.
      * destruct (ok_tmp _ Hok t Et) as [Ht2 Htl].
        apply (edge_ok_sink _ _ _ k); try done; try lia.
        -- rewrite Hc. apply list_lookup_middle. by rewrite classes_length.
        -- by destruct (init_next_state_class _ _ Hk) as [-> | ->].
      * apply Hst; [lia|done].
    + (* a star *)
      destruct (decide (u = size fr)) as [->|Hu].
      { assert (Hcls : classes (f_store fr') !! size fr = Some (StarState t)).
        { rewrite Hc. apply list_lookup_middle. by rewrite classes_length. }
        destruct (ok_tmp _ Hok t Et) as [Ht2 Htl].
        apply elem_of_cons in Hv as [->|Hv];
          [|apply list_elem_of_singleton in Hv as ->].
        - apply (edge_ok_older _ _ _ t); [auto|lia|unfold START; lia].
        - apply (edge_ok_older _ _ _ t); [auto|lia|done]. }
      destruct (decide (u = START)) as [->|Hu0]; [|by apply Hold].
      apply elem_of_insert_inv in Hv as [->|Hv]; [|by apply Hold].
      apply Hst; [lia|done].
    + (* a plus *)
      destruct (ok_tmp _ Hok t Et) as [Ht2 Htl].
      destruct (decide (u = t)) as [->|Hut].
      { apply elem_of_app in Hv as [Hv|Hv]; [by apply Hold|].
        apply list_elem_of_singleton in Hv as ->.
        apply edge_ok_self; [done|done|lia]. }
      destruct (decide (u = size fr)) as [->|Hu].
      { assert (Hcls : classes (f_store fr') !! size fr = Some (PlusState t)).
        { rewrite Hc. apply list_lookup_middle. by rewrite classes_length. }
        apply list_elem_of_singleton in Hv as ->.
        apply (edge_ok_older _ _ _ t); [auto|lia|unfold START; lia]. }
      destruct (decide (u = START)) as [->|Hu0]; [|by apply Hold].
      apply elem_of_insert_inv in Hv as [->|Hv]; [|by apply Hold].
      apply Hst; [lia|done].
Qed.

(** Every automaton the constructor returns is well formed. *)
Lemma compiled_wf p fsm : compiled p fsm -> wf fsm.
Proof.
  intros Hc.
  destruct (compiled_view _ _ Hc) as (fr & Hb & Hs & Ht & _ & Hcl & Hl & Hn).
  pose proof (built_wf_classes _ _ Hb) as Hwf.
  pose proof (built_edges_ok _ _ Hb) as He.
  destruct (built_facts _ _ Hb) as (Hok & Hsz & _).
  split; [done|done|by rewrite Hcl|].
  intros u v Hv. rewrite Hcl. rewrite Hn in Hv.
  destruct (decide (u = anchor fr)) as [->|Hu]; [|by apply He].
  apply elem_of_app in Hv as [Hv|Hv]; [by apply He|].
  apply list_elem_of_singleton in Hv as ->.
  assert (Hl2 : length (classes (f_store fr)) = size fr)
    by (by rewrite classes_length).
  unfold anchor. destruct (tmp_next_state fr) as [t|] eqn:Et; simpl.
  - destruct (ok_tmp _ Hok t Et) as [Ht2 Htl].
    apply (edge_ok_sink _ _ _ TerminationState); try done; try lia.
    apply Hwf.
  - apply edge_ok_start; [apply Hwf|unfold TERMINAL; lia|done].
Qed.

(** * Termination of the matcher *)

Lemma nexts_le_max_out h a : length (nexts h a) <= max_out h.
Proof.
  unfold nexts, max_out. destruct (h !! a) as [st|] eqn:E; simpl; [|lia].
  apply max_list_elem_of_le, list_elem_of_fmap.
  exists st. split; [done|]. by eapply list_elem_of_lookup_2.
Qed.

Lemma work_pos d mu : 1 <= work d mu.
Proof. destruct mu; simpl; lia. Qed.

Lemma work_mono d mu mu' : 1 <= d -> mu <= mu' -> work d mu <= work d mu'.
Proof.
  intros Hd H. induction H as [|mu' _ IH]; [done|]. simpl.
  pose proof (work_pos d mu'). nia.
Qed.

Lemma sum_list_with_bound {A} (f : A -> nat) (l : list A) b :
  Forall (fun x => f x <= b) l -> sum_list_with f l <= length l * b.
Proof. induction 1; simpl; lia. Qed.

Lemma wf_class_start cs a :
  wf_classes cs -> cs !! a = Some StartState -> a = START.
Proof.
  intros (H0 & H1 & Hw) Ha. unfold START, TERMINAL in *.
  destruct a as [|[|a]]; [done|congruence|].
  by specialize (Hw (S (S a)) _ ltac:(lia) Ha).
Qed.

Lemma wf_class_repeat cs a t :
  wf_classes cs ->
  cs !! a = Some (StarState t) \/ cs !! a = Some (PlusState t) ->
  2 <= t < a.
Proof.
  intros (H0 & H1 & Hw) Ha. unfold START, TERMINAL in *.
  destruct a as [|[|a]]; [destruct Ha; congruence..|].
  destruct Ha as [Ha|Ha]; apply (Hw (S (S a)) _ ltac:(lia) Ha).
Qed.

Lemma rank_le cs a : rank cs a <= length cs.
Proof.
  unfold rank. destruct (cs !! a) as [k|] eqn:E; [|lia].
  pose proof (lookup_lt_Some _ _ _ E). destruct k; lia.
Qed.

Lemma rank_le_addr cs a : wf_classes cs -> a <> START -> rank cs a <= a.
Proof.
  intros Hwf Ha. unfold rank. destruct (cs !! a) as [k|] eqn:E; [|lia].
  destruct k; try lia. by apply wf_class_start in E.
Qed.

(** A move that consumes no input lowers the rank. *)
Lemma epsilon_rank h x n t s' :
  wf_classes (classes h) -> edges_ok h ->
  n ∈ nexts h x -> classes h !! n = Some (StarState t) ->
  s' ∈ nexts h n -> s' <> n ->
  rank (classes h) s' < rank (classes h) x.
Proof.
  intros Hwf He Hn Hcn Hs Hne.
  destruct (He _ _ Hn) as (Hnl & Hn0 & Hx).
  destruct (He _ _ Hs) as (Hsl & Hs0 & Hns). rewrite Hcn in Hns.
  pose proof (rank_le_addr _ _ Hwf Hs0) as Hrs.
  assert (Hsink : forall k, classes h !! s' = Some k -> is_sink_class k = true ->
                            rank (classes h) s' = 0).
  { intros k Hk Hsk. unfold rank. rewrite Hk. by destruct k. }
  unfold rank at 2. unfold START in *.
  destruct (classes h !! x) as [[| | | |tx|tx]|] eqn:Ex; try done.
  - lia.
  - by specialize (Hx _ Hcn).
  - by specialize (Hx _ Hcn).
  - destruct Hx as [Hx|(k & Hk & Hsk)];
      [|rewrite Hcn in Hk; by injection Hk as <-].
    destruct Hns as [Hns|(k & Hk & Hsk)]; [lia|].
    rewrite (Hsink _ Hk Hsk). lia.
  - destruct Hx as [Hx|(k & Hk & Hsk)];
      [|rewrite Hcn in Hk; by injection Hk as <-].
    destruct Hns as [Hns|(k & Hk & Hsk)]; [lia|].
    rewrite (Hsink _ Hk Hsk). lia.
Qed.


(** On a well-formed store [check_self] answers or runs out of frames, and
    it runs out only on a state whose address the depth does not exceed. *)
Lemma check_self_rec_outcome h c :
  wf_classes (classes h) ->
  forall d a, a < length h ->
    (exists b, check_self_rec d h a c = Ok b) \/
    (check_self_rec d h a c = Raise RecursionError /\ d <= a).
Proof.
  intros Hwf. induction d as [|d IH]; intros a Hal.
  { right. split; [done|lia]. }
  destruct (lookup_lt_is_Some_2 (classes h) a) as [k Hk];
    [by rewrite classes_length|].
  rewrite (check_self_rec_class _ _ _ _ _ Hk).
  destruct k as [| | | |t|t]; eauto.
  - destruct (wf_class_repeat _ _ t Hwf (or_introl Hk)) as [Ht2 Hta].
    destruct (IH t) as [Hr|[Hr Hd]]; [lia|by left|].
    right. split; [done|lia].
  - destruct (wf_class_repeat _ _ t Hwf (or_intror Hk)) as [Ht2 Hta].
    destruct (IH t) as [Hr|[Hr Hd]]; [lia|by left|].
    right. split; [done|lia].
Qed.

Lemma check_self_outcome h a c :
  wf_classes (classes h) -> a < length h ->
  (exists b, check_self h a c = Ok b) \/
  (check_self h a c = Raise RecursionError /\ check_self_budget <= a).
Proof. intros Hwf Ha. unfold check_self. by apply check_self_rec_outcome. Qed.

Lemma check_self_total h a c :
  wf_classes (classes h) -> a < length h -> a < check_self_budget ->
  exists b, check_self h a c = Ok b.
Proof.
  intros Hwf Ha Hb. destruct (check_self_outcome h a c Hwf Ha) as [H|[_ H]];
    [done|lia].
Qed.

Lemma star_to_terminal_total fsm ns :
  (forall n, n ∈ ns -> n < length (store fsm)) ->
  exists b, star_to_terminal fsm ns = Ok b.
Proof.
  induction ns as [|n ns IH]; intros Hns; simpl; [eauto|].
  destruct (lookup_lt_is_Some_2 (store fsm) n) as [st Hst];
    [apply Hns; by left|].
  unfold deref. rewrite Hst. simpl.
  destruct (_ && _); [eauto|]. apply IH. intros m Hm. apply Hns. by right.
Qed.

Lemma child_cons h n ns pos it : child h ns pos it -> child h (n :: ns) pos it.
Proof.
  intros [[H1 H2]|[H1 (m & t & Hm & H2)]]; [left|right].
  - split; [done|by right].
  - split; [done|]. exists m, t. split; [by right|done].
Qed.

Lemma successors_spec h c pos ns :
  wf_classes (classes h) -> (forall n, n ∈ ns -> n < length h) ->
  (exists new, successors h c pos ns = Ok new /\
     length new <= length ns * S (max_out h) /\
     Forall (child h ns pos) new) \/
  (successors h c pos ns = Raise RecursionError /\
   check_self_budget < length h).
Proof.
  intros Hwf. induction ns as [|n ns IH]; intros Hns; simpl.
  - left. exists []. by repeat split.
  - assert (Hn : n < length h) by (apply Hns; by left).
    destruct (check_self_outcome h n c Hwf Hn) as [[b ->]|[-> Hd]]; simpl;
      [|right; split; [done|lia]].
    destruct (lookup_lt_is_Some_2 h n Hn) as [st Hst].
    destruct (lookup_view _ _ _ Hst) as [Hcl Hnx].
    assert (Hdn : deref h n = Ok st) by (unfold deref; by rewrite Hst).
    rewrite Hdn. simpl.
    destruct IH as [(more & -> & Hlen & Hch)|[-> Hd]];
      [intros m Hm; apply Hns; by right| |simpl; right; by split].
    simpl. left. eexists. split; [done|]. split.
    + rewrite !length_app.
      assert (length (if b then [(n, pos + 1)] else []) <= 1)
        by (destruct b; simpl; lia).
      assert (length (if is_StarState st
                      then (fun s : nat => (s, pos)) <$>
                           filter (fun s : nat => s ≠ n) (next_states st)
                      else []) <= max_out h).
      { destruct (is_StarState st); simpl; [|lia].
        rewrite length_fmap. etrans; [apply length_filter|].
        rewrite <- Hnx. apply nexts_le_max_out. }
      lia.
    + apply Forall_app. split; [|apply Forall_app; split].
      * destruct b; [|done]. apply Forall_singleton. left. simpl.
        split; [done|by left].
      * unfold is_StarState. destruct (class st) as [| | | |t|t] eqn:Ec; try done.
        apply Forall_fmap, Forall_forall. intros s' Hs'.
        apply list_elem_of_filter in Hs' as [Hne Hs']. right. simpl.
        split; [done|]. exists n, t. rewrite Hcl, Hnx. split; [by left|done].
      * eapply Forall_impl; [done|]. intros it. apply child_cons.
Qed.

Lemma child_valid fsm s a pos it :
  wf fsm -> pos < length s ->
  child (store fsm) (nexts (store fsm) a) pos it ->
  valid fsm s it /\ measure fsm s it < measure fsm s (a, pos).
Proof.
  intros [_ _ Hwf He] Hpos Hch. unfold valid, measure. simpl.
  pose proof (rank_le (classes (store fsm)) it.1) as Hr.
  rewrite classes_length in Hr.
  destruct Hch as [[-> Hn]|[-> (n & t & Hn & Hcn & Hs & Hne)]].
  - destruct (He _ _ Hn) as (Hnl & _). rewrite classes_length in Hnl.
    split; [lia|]. nia.
  - destruct (He _ _ Hs) as (Hsl & _). rewrite classes_length in Hsl.
    split; [lia|].
    pose proof (epsilon_rank _ _ _ _ _ Hwf He Hn Hcn Hs Hne). lia.
Qed.

(** Enough fuel: the sum of the costs of the pairs in the worklist.  The
    loop is then left, with a boolean or with the RecursionError of a
    [check_self], which needs a store larger than the budget of frames. *)
Lemma check_loop_terminates fsm s :
  wf fsm ->
  forall fuel q,
    Forall (valid fsm s) q -> sum_list_with (cost fsm s) q < fuel ->
    exists r, check_loop fuel fsm s q = Some r /\
      ((exists b, r = Ok b) \/
       (r = Raise RecursionError /\
        check_self_budget < length (store fsm))).
Proof.
  intros Hwf. pose proof Hwf as [_ _ Hcls He].
  induction fuel as [|fuel IH]; intros q Hq Hfuel; [lia|].
  destruct q as [|[a pos] rest]; [exists (Ok false); eauto|].
  rewrite check_loop_cons.
  apply Forall_cons_1 in Hq as [[Ha Hpos] Hrest]. simpl in Ha, Hpos, Hfuel.
  destruct (lookup_lt_is_Some_2 _ _ Ha) as [st Hst].
  destruct (lookup_view _ _ _ Hst) as [_ Hnx].
  unfold deref at 1. rewrite Hst, <- Hnx.
  assert (Hns : forall n, n ∈ nexts (store fsm) a -> n < length (store fsm)).
  { intros n Hn. destruct (He _ _ Hn) as (Hnl & _).
    by rewrite classes_length in Hnl. }
  pose proof (work_pos (branching (store fsm)) (measure fsm s (a, pos))) as Hw.
  fold (cost fsm s (a, pos)) in Hw.
  destruct (Nat.eqb_spec pos (length s)) as [Heq|Hneq].
  - destruct (bool_decide _); [exists (Ok true); eauto|].
    destruct (star_to_terminal_total fsm _ Hns) as [[|] ->];
      [exists (Ok true); eauto|].
    apply IH; [done|lia].
  - assert (Hlt : pos < length s) by lia.
    destruct (lookup_lt_is_Some_2 s pos Hlt) as [c ->].
    destruct (successors_spec (store fsm) c pos _ Hcls Hns)
      as [(new & -> & Hlen & Hch)|[-> Hd]];
      [|exists (Raise RecursionError); auto].
    assert (Hnew : Forall (fun it => valid fsm s it /\
                                     measure fsm s it < measure fsm s (a, pos)) new).
    { eapply Forall_impl; [exact Hch|]. intros it. by apply child_valid. }
    apply IH.
    + apply Forall_app. split; [done|].
      eapply Forall_impl; [exact Hnew|]. by intros it [? _].
    + rewrite sum_list_with_app.
      enough (sum_list_with (cost fsm s) new < cost fsm s (a, pos)) by lia.
      unfold cost at 2. destruct (measure fsm s (a, pos)) as [|m] eqn:Em.
      { destruct new as [|it new]; [simpl; lia|].
        apply Forall_cons_1 in Hnew as [[_ Hm] _]. lia. }
      simpl.
      assert (Hb : sum_list_with (cost fsm s) new
                   <= length new * work (branching (store fsm)) m).
      { apply sum_list_with_bound. eapply Forall_impl; [exact Hnew|].
        intros it [_ Hm]. simpl. unfold cost.
        apply work_mono; [unfold branching|]; lia. }
      pose proof (nexts_le_max_out (store fsm) a) as Hout.
      pose proof (work_pos (branching (store fsm)) m) as Hwm.
      unfold branching in *. nia.
Qed.

Lemma compiled_length p fsm :
  compiled p fsm -> length (store fsm) = 2 + length p.
Proof.
  intros Hc. destruct (compiled_view _ _ Hc) as (fr & Hb & _ & _ & _ & _ & Hl & _).
  destruct (built_facts _ _ Hb) as (_ & Hsz & _). by rewrite Hl.
Qed.





(** * Further properties of the code *)


Lemma wf_nexts_lt fsm a n :
  wf fsm -> n ∈ nexts (store fsm) a -> n < length (store fsm).
Proof.
  intros Hwf Hn. destruct (wf_edges _ Hwf _ _ Hn) as (Hl & _).
  by rewrite classes_length in Hl.
Qed.

Lemma wf_nexts_terminal fsm : wf fsm -> nexts (store fsm) TERMINAL = [].
Proof.
  intros Hwf. destruct (nexts (store fsm) TERMINAL) as [|v l] eqn:E; [done|].
  assert (Hv : v ∈ nexts (store fsm) TERMINAL) by (rewrite E; by left).
  destruct (wf_edges _ Hwf _ _ Hv) as (_ & _ & Hu).
  destruct (wf_cls _ Hwf) as (_ & H1 & _). by rewrite H1 in Hu.
Qed.



Lemma deref_Ok_view h a st :
  deref h a = Ok st -> classes h !! a = Some (class st) /\ nexts h a = next_states st.
Proof.
  unfold deref. destruct (h !! a) eqn:E; [|done].
  intros [= ->]. by apply lookup_view.
Qed.

Lemma star_to_terminal_spec fsm ns b :
  star_to_terminal fsm ns = Ok b ->
  (b = true <->
   exists n t, n ∈ ns /\ classes (store fsm) !! n = Some (StarState t) /\
               terminal_state fsm ∈ nexts (store fsm) n).
Proof.
  revert b. induction ns as [|n ns IH]; intros b; simpl.
  - intros [= <-]. split; [done|]. intros (n & t & Hn & _). by apply elem_of_nil in Hn.
  - destruct (deref (store fsm) n) as [st|e] eqn:E; simpl; [|done].
    apply deref_Ok_view in E as [Hc Hnx].
    destruct (is_StarState st && bool_decide (terminal_state fsm ∈ next_states st)) eqn:Eb.
    + intros [= <-]. split; [|done]. intros _.
      apply andb_true_iff in Eb as [Es Et]. apply bool_decide_eq_true in Et.
      unfold is_StarState in Es. destruct (class st) as [| | | |t|t]; try done.
      exists n, t. rewrite Hnx. split; [by left|done].
    + intros Hb. rewrite (IH _ Hb). split.
      * intros (m & t & Hm & Hcm & Htm). exists m, t. split; [by right|done].
      * intros (m & t & Hm & Hcm & Htm).
        apply elem_of_cons in Hm as [->|Hm]; [|by exists m, t].
        exfalso. rewrite Hc in Hcm. rewrite Hnx in Htm.
        unfold is_StarState in Eb. injection Hcm as Hcm. rewrite Hcm in Eb.
        simpl in Eb. by rewrite bool_decide_eq_true_2 in Eb.
Qed.

Lemma successors_elem h c pos ns new it :
  successors h c pos ns = Ok new ->
  (it ∈ new <->
   exists n, n ∈ ns /\
     ((it = (n, pos + 1) /\ check_self h n c = Ok true) \/
      (exists t s', classes h !! n = Some (StarState t) /\ it = (s', pos) /\
                    s' ∈ nexts h n /\ s' <> n))).
Proof.
  revert new. induction ns as [|n ns IH]; intros new; simpl.
  - intros [= <-]. split; [intros H; by apply elem_of_nil in H|].
    intros (n & Hn & _). by apply elem_of_nil in Hn.
  - destruct (check_self h n c) as [b|e] eqn:Eb; simpl; [|done].
    destruct (deref h n) as [st|e] eqn:Est; simpl; [|done].
    apply deref_Ok_view in Est as [Hc Hnx].
    destruct (successors h c pos ns) as [more|e] eqn:Em; simpl; [|done].
    intros [= <-]. rewrite !elem_of_app, (IH more eq_refl). clear IH. split.
    + intros [H|[H|(m & Hm & H)]].
      * destruct b; [|by apply elem_of_nil in H].
        apply list_elem_of_singleton in H as ->. exists n. split; [by left|auto].
      * unfold is_StarState in H.
        destruct (class st) as [| | | |t|t] eqn:Ec; try (by apply elem_of_nil in H).
        apply list_elem_of_fmap in H as (s' & -> & Hs').
        apply list_elem_of_filter in Hs' as [Hne Hs'].
        exists n. split; [by left|]. right. exists t, s'. by rewrite Hnx.
      * exists m. split; [by right|done].
    + intros (m & Hm & H). apply elem_of_cons in Hm as [->|Hm];
        [|right; right; by exists m].
      destruct H as [[-> Hcs]|(t & s' & Hcm & -> & Hs' & Hne)].
      * left. rewrite Eb in Hcs. injection Hcs as ->. by left.
      * right. left. rewrite Hc in Hcm. injection Hcm as Hcm.
        unfold is_StarState. rewrite Hcm.
        apply list_elem_of_fmap. exists s'. split; [done|].
        apply list_elem_of_filter. by rewrite <- Hnx.
Qed.

Lemma moves_end fsm s it it' :
  it.2 = length s -> moves fsm s it it' -> it' = it.
Proof.
  intros Hend Hm. inversion Hm as [|it1 it2 it3 Hm1 _]; subst; [done|].
  exfalso.
  inversion Hm1 as [a pos c n Hc _ _|a pos c n t s' Hc _ _ _ _]; subst;
    simpl in Hend; apply lookup_lt_Some in Hc; lia.
Qed.

(** What the loop returns, when it returns: whether an accepting pair can
    be reached, by moves, from a pair of the worklist. *)
Lemma check_loop_search fsm s fuel q b :
  check_loop fuel fsm s q = Some (Ok b) ->
  (b = true <->
   exists it it', it ∈ q /\ moves fsm s it it' /\ accepting fsm s it').
Proof.
  revert q. induction fuel as [|fuel IH]; intros q; [done|].
  destruct q as [|[a pos] rest].
  { simpl. intros [= <-]. split; [done|].
    intros (it & _ & H & _). by apply elem_of_nil in H. }
  rewrite check_loop_cons.
  destruct (deref (store fsm) a) as [st|e] eqn:Est; [|done].
  apply deref_Ok_view in Est as [_ Hnx]. rewrite <- Hnx.
  destruct (Nat.eqb_spec pos (length s)) as [Hend|Hmid].
  - assert (Hacc : accepting fsm s (a, pos) <->
              terminal_state fsm ∈ nexts (store fsm) a \/
              exists n t, n ∈ nexts (store fsm) a /\
                classes (store fsm) !! n = Some (StarState t) /\
                terminal_state fsm ∈ nexts (store fsm) n).
    { unfold accepting. simpl. tauto. }
    assert (Hhere : accepting fsm s (a, pos) ->
              exists it it', it ∈ (a, pos) :: rest /\ moves fsm s it it' /\
                             accepting fsm s it').
    { intros H. exists (a, pos), (a, pos).
      split; [by left|]. split; [apply moves_here|done]. }
    destruct (bool_decide (terminal_state fsm ∈ nexts (store fsm) a)) eqn:Et.
    { intros [= <-]. split; [|done]. intros _. apply Hhere, Hacc. left.
      by apply bool_decide_eq_true in Et. }
    apply bool_decide_eq_false in Et.
    destruct (star_to_terminal fsm (nexts (store fsm) a)) as [b'|e] eqn:Es; [|done].
    pose proof (star_to_terminal_spec _ _ _ Es) as Hs.
    destruct b'.
    { intros [= <-]. split; [|done]. intros _. apply Hhere, Hacc. right.
      by apply Hs. }
    intros Hb. rewrite (IH _ Hb). split.
    + intros (it & it' & Hit & H). exists it, it'. split; [by right|done].
    + intros (it & it' & Hit & Hm & Ha).
      apply elem_of_cons in Hit as [->|Hit]; [|by exists it, it'].
      exfalso. apply (moves_end fsm s (a, pos)) in Hm as ->; [|done].
      apply Hacc in Ha as [Ha|Ha]; [done|]. by apply Hs in Ha.
  - destruct (s !! pos) as [c|] eqn:Ec; [|done].
    destruct (successors (store fsm) c pos (nexts (store fsm) a)) as [new|e] eqn:En;
      [|done].
    pose proof (fun it => successors_elem _ _ _ _ _ it En) as Hnew.
    intros Hb. rewrite (IH _ Hb). split.
    + intros (it & it' & Hit & Hm & Ha).
      apply elem_of_app in Hit as [Hit|Hit].
      * exists it, it'. split; [by right|done].
      * exists (a, pos), it'. split; [by left|]. split; [|done].
        apply (moves_step _ _ _ it); [|done].
        apply Hnew in Hit as (n & Hn & [[-> Hcs]|(t & s' & Hcn & -> & Hs' & Hne)]).
        -- by eapply move_consume.
        -- by eapply move_skip.
    + intros (it & it' & Hit & Hm & Ha).
      apply elem_of_cons in Hit as [->|Hit].
      2:{ exists it, it'. split; [|done]. apply elem_of_app. by left. }
      inversion Hm as [it0|it1 it2 it3 Hm1 Hm2]; subst.
      { destruct Ha as [Ha _]. simpl in Ha. lia. }
      exists it2, it'. split; [|done]. apply elem_of_app. right.
      apply Hnew.
      inversion Hm1 as [a0 pos0 c0 n Hc0 Hn Hcs|a0 pos0 c0 n t s' Hc0 Hn Hcn Hs' Hne];
        subst; rewrite Ec in Hc0; injection Hc0 as <-; exists n; split; auto.
      right. by exists t, s'.
Qed.

Lemma wf_start_valid fsm s : wf fsm -> Forall (valid fsm s) [(start_state fsm, 0)].
Proof.
  intros Hwf. apply Forall_singleton. split; simpl; [|lia].
  rewrite (wf_start _ Hwf). destruct (wf_cls _ Hwf) as (H0 & _).
  apply lookup_lt_Some in H0. by rewrite classes_length in H0.
Qed.

(** What [check_string] returns, when it returns. *)
Lemma returns_search fsm s b :
  returns fsm s b ->
  (b = true <->
   exists it, moves fsm s (start_state fsm, 0) it /\ accepting fsm s it).
Proof.
  intros [fuel Hf]. unfold check_string in Hf.
  rewrite (check_loop_search _ _ _ _ _ Hf). split.
  - intros (it & it' & Hit & H). apply list_elem_of_singleton in Hit as ->. eauto.
  - intros (it' & H). exists (start_state fsm, 0), it'. split; [by left|done].
Qed.

(** On a store that is not larger than the budget of frames,
    [check_string] returns. *)
Lemma wf_returns fsm s :
  wf fsm -> length (store fsm) <= check_self_budget ->
  exists b, returns fsm s b.
Proof.
  intros Hwf Hfit.
  destruct (check_loop_terminates fsm s Hwf
              (S (cost fsm s (start_state fsm, 0))) [(start_state fsm, 0)])
    as (r & Hr & [[b ->]|[_ Hlt]]); [by apply wf_start_valid|simpl; lia| |lia].
  exists b. by eexists.
Qed.

Lemma wf_returns_search fsm s b :
  wf fsm -> length (store fsm) <= check_self_budget ->
  (returns fsm s b <->
   (b = true <->
    exists it, moves fsm s (start_state fsm, 0) it /\ accepting fsm s it)).
Proof.
  intros Hwf Hfit. split; [apply returns_search|]. intros Hb.
  destruct (wf_returns fsm s Hwf Hfit) as [b0 Hr].
  pose proof (returns_search _ _ _ Hr) as H0.
  replace b with b0; [done|]. destruct b, b0; try done.
  + by pose proof (proj2 H0 (proj1 Hb eq_refl)).
  + by pose proof (proj2 Hb (proj1 H0 eq_refl)).
Qed.

(** On the empty input no [check_self] is called. *)
Lemma returns_empty_search fsm :
  wf fsm ->
  (returns fsm [] true <->
   exists it, moves fsm [] (start_state fsm, 0) it /\ accepting fsm [] it).
Proof.
  intros Hwf. split; [intros Hr; by apply (returns_search _ _ _ Hr)|].
  intros (it & Hm & Ha). apply moves_end in Hm as ->; [|done].
  destruct Ha as [_ Ha]. simpl in Ha.
  pose proof (wf_start_valid fsm [] Hwf) as Hv.
  apply Forall_singleton in Hv as [Hlt _]. simpl in Hlt.
  destruct (lookup_lt_is_Some_2 _ _ Hlt) as [st Hst].
  destruct (lookup_view _ _ _ Hst) as [_ Hnx].
  exists 1. unfold check_string. rewrite check_loop_cons.
  unfold deref. rewrite Hst, <- Hnx. simpl.
  destruct (bool_decide (terminal_state fsm ∈ nexts (store fsm) (start_state fsm)))
    eqn:Et; [done|].
  apply bool_decide_eq_false in Et.
  destruct (star_to_terminal_total fsm (nexts (store fsm) (start_state fsm)))
    as [b Hb]; [intros n Hn; by eapply wf_nexts_lt|].
  rewrite Hb. pose proof (star_to_terminal_spec _ _ _ Hb) as Hs.
  destruct Ha as [Ha|Ha]; [done|]. apply Hs in Ha. by subst b.
Qed.



Lemma built_start_edges p fr :
  built p fr -> length (nexts (f_store fr) START) <= 1.
Proof.
  induction 1 as [|p c fr fr' Hb IH Hs]; [simpl; unfold nexts; simpl; lia|].
  destruct (built_facts _ _ Hb) as (Hok & Hsz & _).
  pose proof (ok_start _ Hok) as Hst.
  destruct Hs as [k _ _ _ _ Hn _ _|t _ Et _ Hn _ _|t _ Et _ Hn _ _]; rewrite Hn.
  - destruct (tmp_next_state fr) as [t|] eqn:Et.
    + assert (anchor fr = t) as -> by (unfold anchor; by rewrite Et).
      destruct (ok_tmp _ Hok t Et). unfold START in *.
      rewrite decide_False by lia. done.
    + assert (anchor fr = START) as -> by (unfold anchor; by rewrite Et).
      rewrite decide_True by done. rewrite Hst. simpl. lia.
  - unfold START in *. rewrite decide_False by lia.
    rewrite decide_True by done. by rewrite length_insert.
  - destruct (ok_tmp _ Hok t Et). unfold START in *.
    rewrite !decide_False by lia. rewrite decide_True by done.
    by rewrite length_insert.
Qed.

(** X3: a compiled automaton has one object per pattern character besides
    the start and the terminal state; [states] lists the start state and
    then the state of each character in pattern order, without repetition
    and without the terminal state; and the class of each state is that of
    its character: DotState for [.], StarState for [*], PlusState for [+],
    each Repeat wrapping an older state that is neither the start nor the
    terminal state, and AsciiState holding the character otherwise. *)
Theorem one_state_per_token (p : str) (fsm : RegexFSM) :
  compiled p fsm ->
  length (store fsm) = 2 + length p /\
  start_state fsm = START /\ terminal_state fsm = TERMINAL /\
  states fsm = START :: seq 2 (length p) /\
  NoDup (states fsm) /\ (terminal_state fsm ∉ states fsm) /\
  classes (store fsm) !! START = Some StartState /\
  classes (store fsm) !! TERMINAL = Some TerminationState /\
  forall i c, p !! i = Some c ->
    states fsm !! (S i) = Some (2 + i) /\
    exists k, classes (store fsm) !! (2 + i) = Some k /\
      (c = DOT -> k = DotState) /\
      (c = STAR -> exists t, k = StarState t /\ 2 <= t < 2 + i) /\
      (c = PLUS -> exists t, k = PlusState t /\ 2 <= t < 2 + i) /\
      (c <> DOT -> c <> STAR -> c <> PLUS -> k = AsciiState c).
Proof.
  intros Hc.
  destruct (compiled_view _ _ Hc) as (fr & Hb & Hs & Ht & Hst & Hcl & Hl & _).
  destruct (built_facts _ _ Hb) as (_ & Hsz & Hsts & _).
  destruct (built_classes _ _ Hb) as (H0 & H1 & Hi).
  rewrite Hst, Hsts, Hcl, Ht.
  split; [lia|]. do 3 (split; [done|]).
  split.
  { apply NoDup_cons. split; [|apply NoDup_seq].
    intros H. apply list_elem_of_In, in_seq in H. unfold START in H. lia. }
  split.
  { intros H. apply elem_of_cons in H as [H|H]; [done|].
    apply list_elem_of_In, in_seq in H. unfold TERMINAL in H. lia. }
  do 2 (split; [done|]).
  intros i c Hic. pose proof (lookup_lt_Some _ _ _ Hic) as Hlt.
  split; [simpl; by rewrite lookup_seq_lt|].
  destruct (Hi i c Hic) as (k & Hk & Htk). exists k. split; [done|].
  unfold token_class in Htk.
  destruct (decide (c = STAR)) as [->|HS].
  { repeat split; try done. }
  destruct (decide (c = PLUS)) as [->|HP].
  { repeat split; try done. }
  unfold init_next_state in Htk.
  destruct (N.eqb_spec c DOT) as [->|HD].
  { injection Htk as <-. repeat split; try done. }
  destruct (isascii c); [|done]. injection Htk as <-.
  repeat split; try done.
Qed.

Lemma one_state_per_token_witness :
  exists fsm, compiled (str_of "a.*+") fsm /\
    states fsm = [0; 2; 3; 4; 5] /\ length (store fsm) = 6.
Proof.
  eexists. split; [vm_compute; reflexivity|].
  destruct (one_state_per_token (str_of "a.*+") _ ltac:(vm_compute; reflexivity))
    as (Hl & _ & _ & Hs & _).
  split; [exact Hs | exact Hl].
Defined.

(** X4: in a compiled automaton the terminal state has no successor, no
    edge leads to the start state, the start state has exactly one
    successor, and every successor listed anywhere is an object of the
    store. *)
Theorem edges_of_compiled (p : str) (fsm : RegexFSM) :
  compiled p fsm ->
  nexts (store fsm) (terminal_state fsm) = [] /\
  length (nexts (store fsm) (start_state fsm)) = 1 /\
  forall u v, v ∈ nexts (store fsm) u ->
    v <> start_state fsm /\ v < length (store fsm) /\ u <> terminal_state fsm.
Proof.
  intros Hc. pose proof (compiled_wf _ _ Hc) as Hwf.
  rewrite (wf_start _ Hwf), (wf_terminal _ Hwf).
  split; [by apply wf_nexts_terminal|]. split.
  - destruct (compiled_view _ _ Hc) as (fr & Hb & _ & _ & _ & _ & _ & Hn).
    pose proof (built_start_edges _ _ Hb) as Hle.
    pose proof (ok_start _ (built_ok _ _ Hb)) as Hst.
    pose proof (ok_tmp _ (built_ok _ _ Hb)) as Htmp.
    rewrite Hn. destruct (tmp_next_state fr) as [t|] eqn:Et.
    + assert (anchor fr = t) as -> by (unfold anchor; by rewrite Et).
      specialize (Htmp t eq_refl). unfold START in *.
      rewrite decide_False by lia.
      destruct (nexts (f_store fr) 0) as [|x [|y l]]; simpl in *; [done|done|lia].
    + assert (anchor fr = START) as -> by (unfold anchor; by rewrite Et).
      rewrite decide_True by done. rewrite Hst. done.
  - intros u v Hv. destruct (wf_edges _ Hwf _ _ Hv) as (Hl & H0 & Hu).
    rewrite classes_length in Hl. split; [done|]. split; [done|].
    intros ->. destruct (wf_cls _ Hwf) as (_ & H1 & _). by rewrite H1 in Hu.
Qed.

Lemma edges_of_compiled_witness :
  exists fsm, compiled (str_of "ab*c") fsm /\
    nexts (store fsm) (terminal_state fsm) = [] /\
    length (nexts (store fsm) (start_state fsm)) = 1.
Proof.
  eexists. split; [vm_compute; reflexivity|].
  destruct (edges_of_compiled (str_of "ab*c") _ ltac:(vm_compute; reflexivity))
    as (H1 & H2 & _).
  split; [exact H1 | exact H2].
Defined.

(** X5: the constructor succeeds exactly on the patterns that are ASCII
    throughout and do not begin with a quantifier, and its only errors are
    the two "ValueError"s: the assignment to [prev_state.next_states[-1]]
    never raises IndexError, the start state having a successor whenever a
    quantifier is accepted. *)
Theorem constructor_outcomes (p : str) :
  ((exists fsm, compiled p fsm) <->
   ~ leading_quantifier p /\ Forall (fun c => isascii c = true) p) /\
  (forall e, RegexFSM_init p = Raise e ->
     (exists q, e = LeadingQuantifier q /\ head p = Some q /\ quantifier q) \/
     (exists t, e = UnsupportedToken t /\ t ∈ p /\ isascii t = false)).
Proof.
  split; [apply compiles_iff|].
  intros e He. pose proof (init_result p) as Hr. rewrite He in Hr.
  destruct Hr as [(q & rest & -> & Hq & ->)|(pre & t & post & -> & -> & Ht & _)].
  - left. by exists q.
  - right. exists t. split; [done|]. split; [|done].
    apply elem_of_app. right. by left.
Qed.

Lemma constructor_outcomes_witness :
  (exists fsm, compiled (str_of "a+b*") fsm) /\
  ((exists q, LeadingQuantifier STAR = LeadingQuantifier q /\
              head (str_of "*a") = Some q /\ quantifier q) \/
   (exists t, LeadingQuantifier STAR = UnsupportedToken t /\
              t ∈ str_of "*a" /\ isascii t = false)).
Proof.
  split.
  - apply (proj1 (constructor_outcomes (str_of "a+b*"))). split.
    + intros (q & rest & [= <- _] & [Hq|Hq]); discriminate Hq.
    + by repeat constructor.
  - apply (proj2 (constructor_outcomes (str_of "*a"))). reflexivity.
Defined.




(** With whatever frames are left, a state of a compiled automaton other
    than the start and the terminal state answers as an atom of the
    pattern does, the one its chain of wrapped states ends in, or it runs
    out of frames, the depth not exceeding its address. *)
Lemma compiled_check_self_rec p fsm a :
  compiled p fsm -> 2 <= a < length (store fsm) ->
  exists t, t ∈ p /\
    forall d c,
      check_self_rec d (store fsm) a c = Ok ((t =? DOT)%N || (c =? t)%N) \/
      (check_self_rec d (store fsm) a c = Raise RecursionError /\ d <= a).
Proof.
  intros Hc.
  destruct (compiled_view _ _ Hc) as (fr & Hb & _ & _ & _ & Hcl & Hl & _).
  destruct (built_facts _ _ Hb) as (_ & Hsz & _).
  destruct (built_classes _ _ Hb) as (_ & _ & Hi). rewrite <- Hcl in Hi.
  induction a as [a IH] using lt_wf_ind. intros [Ha2 Hal].
  destruct (lookup_lt_is_Some_2 p (a - 2)) as [tok Htok]; [lia|].
  destruct (Hi _ _ Htok) as (k & Hk & Htk).
  replace (2 + (a - 2)) with a in * by lia.
  assert (Hrep : forall t', 2 <= t' < a ->
            k = StarState t' \/ k = PlusState t' ->
            exists t, t ∈ p /\
              forall d c,
                check_self_rec d (store fsm) a c = Ok ((t =? DOT)%N || (c =? t)%N) \/
                (check_self_rec d (store fsm) a c = Raise RecursionError /\ d <= a)).
  { intros t' Ht' Hkt.
    destruct (IH t' ltac:(lia) ltac:(lia)) as (t & Htp & H).
    exists t. split; [done|]. intros d c.
    destruct d as [|d]; [right; split; [done|lia]|].
    rewrite (check_self_rec_class _ _ _ _ _ Hk).
    assert (Hd : check_self_rec d (store fsm) t' c = Ok ((t =? DOT)%N || (c =? t)%N) \/
                 (check_self_rec d (store fsm) t' c = Raise RecursionError /\ S d <= a)).
    { destruct (H d c) as [Hr|[Hr Hle]]; [by left|right; split; [done|lia]]. }
    by destruct Hkt as [-> | ->]. }
  unfold token_class in Htk.
  destruct (decide (tok = STAR)) as [->|HS].
  { destruct Htk as (t' & -> & Ht'). apply (Hrep t'); auto. }
  destruct (decide (tok = PLUS)) as [->|HP].
  { destruct Htk as (t' & -> & Ht'). apply (Hrep t'); auto. }
  exists tok. split; [by eapply list_elem_of_lookup_2|]. intros d c.
  destruct d as [|d]; [right; split; [done|lia]|]. left.
  rewrite (check_self_rec_class _ _ _ _ _ Hk).
  unfold init_next_state in Htk.
  destruct (N.eqb_spec tok DOT) as [->|HD]; [by injection Htk as <-|].
  destruct (isascii tok); [|done]. by injection Htk as <-.
Qed.




Lemma built_split p1 p2 fr :
  built (p1 ++ p2) fr -> exists fr1, built p1 fr1 /\ steps fr1 p2 fr.
Proof.
  revert fr. induction p2 as [|c p2 IH] using rev_ind; intros fr Hb.
  - rewrite app_nil_r in Hb. exists fr. split; [done|apply steps_nil].
  - rewrite app_assoc in Hb. apply built_inv_snoc in Hb as (fr0 & Hb & Hs).
    destruct (IH _ Hb) as (fr1 & Hb1 & Hst). exists fr1. split; [done|].
    by eapply steps_snoc.
Qed.

Lemma steps_built p1 p2 fr1 fr :
  built p1 fr1 -> steps fr1 p2 fr -> built (p1 ++ p2) fr.
Proof.
  intros Hb. induction 1 as [|fr1 p2 c fr2 fr3 _ IH Hs].
  - by rewrite app_nil_r.
  - rewrite app_assoc. eapply built_snoc; [by apply IH|done].
Qed.

Lemma step_start_quantifier fr c fr' :
  frame_ok fr -> length (nexts (f_store fr) START) <= 1 ->
  step fr c fr' -> quantifier c ->
  nexts (f_store fr') START = [size fr].
Proof.
  intros Hok Hle Hs Hq. pose proof (ok_size _ Hok) as Hsz.
  pose proof (ok_start _ Hok) as Hst.
  assert (Hins : tmp_next_state fr <> None ->
            <[pred (length (nexts (f_store fr) START)) := size fr]>
              (nexts (f_store fr) START) = [size fr]).
  { intros Hne. destruct (tmp_next_state fr); [|done].
    destruct (nexts (f_store fr) START) as [|x [|y l]]; simpl in *; [done|done|lia]. }
  destruct Hs as [k HS HP _ _ _ _ _|t _ Et _ Hn _ _|t _ Et _ Hn _ _].
  - by destruct Hq.
  - rewrite Hn. unfold START in *. rewrite decide_False by lia.
    rewrite decide_True by done. apply Hins. by rewrite Et.
  - destruct (ok_tmp _ Hok t Et). rewrite Hn. unfold START in *.
    rewrite !decide_False by lia. rewrite decide_True by done.
    apply Hins. by rewrite Et.
Qed.

Lemma step_start_atom fr c fr' :
  frame_ok fr -> tmp_next_state fr <> None ->
  step fr c fr' -> ~ quantifier c ->
  nexts (f_store fr') START = nexts (f_store fr) START.
Proof.
  intros Hok Hne Hs Hq.
  destruct Hs as [k _ _ _ _ Hn _ _|t -> _ _ _ _ _|t -> _ _ _ _ _];
    [|exfalso; apply Hq; by left|exfalso; apply Hq; by right].
  rewrite Hn. destruct (tmp_next_state fr) as [t|] eqn:Et; [|done].
  assert (anchor fr = t) as -> by (unfold anchor; by rewrite Et).
  destruct (ok_tmp _ Hok t Et). unfold START. by rewrite decide_False by lia.
Qed.

Lemma step_above low fr c fr' :
  frame_ok fr -> low < size fr -> above low fr -> step fr c fr' -> above low fr'.
Proof.
  intros Hok Hlow [(t0 & Et0 & Ht0) Hab] Hs.
  assert (Ha : anchor fr = t0) by (unfold anchor; by rewrite Et0).
  destruct Hs as [k _ _ _ _ Hn _ Ht|t _ Et _ Hn _ Ht|t _ Et _ Hn _ Ht].
  - split; [exists (size fr); split; [done|lia]|].
    intros u v Hu Hv. rewrite Hn, Ha in Hv.
    destruct (decide (u = t0)); [|by eapply Hab].
    apply elem_of_app in Hv as [Hv|Hv]; [by eapply Hab|].
    apply list_elem_of_singleton in Hv. lia.
  - rewrite Et0 in Et. injection Et as <-.
    split; [exists (size fr); split; [done|lia]|].
    intros u v Hu Hv. rewrite Hn in Hv.
    destruct (decide (u = size fr)).
    { apply elem_of_cons in Hv as [->|Hv]; [done|].
      apply list_elem_of_singleton in Hv. lia. }
    destruct (decide (u = START)) as [->|]; [|by eapply Hab].
    apply elem_of_insert_inv in Hv as [->|Hv]; [lia|apply (Hab _ _ Hu Hv)].
  - rewrite Et0 in Et. injection Et as <-.
    split; [by exists t0|].
    intros u v Hu Hv. rewrite Hn in Hv.
    destruct (decide (u = t0)) as [->|].
    { apply elem_of_app in Hv as [Hv|Hv]; [by eapply Hab|].
      apply list_elem_of_singleton in Hv. lia. }
    destruct (decide (u = size fr)).
    { apply list_elem_of_singleton in Hv. lia. }
    destruct (decide (u = START)) as [->|]; [|by eapply Hab].
    apply elem_of_insert_inv in Hv as [->|Hv]; [lia|apply (Hab _ _ Hu Hv)].
Qed.

Lemma steps_above low p1 fr1 p2 fr :
  built p1 fr1 -> low < size fr1 -> above low fr1 -> steps fr1 p2 fr ->
  above low fr /\ low < size fr /\
  ((exists q, q ∈ p2 /\ quantifier q) ->
   exists a, nexts (f_store fr) START = [a] /\ low <= a).
Proof.
  intros Hb Hlow Hab. induction 1 as [|fr1 p2 c fr2 fr3 Hst IH Hs].
  - split; [done|]. split; [done|].
    intros (q & Hq & _). by apply elem_of_nil in Hq.
  - destruct (IH Hb Hlow Hab) as (Hab2 & Hlow2 & Hq2). clear IH.
    pose proof (steps_built _ _ _ _ Hb Hst) as Hb2.
    pose proof (built_ok _ _ Hb2) as Hok2.
    split; [by eapply step_above|].
    split; [rewrite (step_size _ _ _ Hs); lia|].
    intros (q & Hq & Hqq).
    destruct (decide (c = STAR \/ c = PLUS)) as [Hc|Hc].
    + exists (size fr2). split; [|lia].
      eapply step_start_quantifier; try done.
      by eapply built_start_edges.
    + apply elem_of_app in Hq as [Hq|Hq].
      2:{ apply list_elem_of_singleton in Hq as ->. by destruct Hc. }
      destruct Hq2 as (a & Ha & Hla); [by exists q|]. exists a. split; [|done].
      rewrite <- Ha. eapply step_start_atom; try done.
      destruct Hab2 as [(t & -> & _) _]. done.
Qed.

(** X7: whenever a quantifier occurs somewhere after an atom of the
    pattern, the states created for the characters before that atom cannot
    be reached from the start state of the compiled automaton: each
    quantifier overwrites the last edge of the start state, which then
    leads to the newest Repeat, and nothing at or after the atom leads
    back. *)
Theorem states_before_quantified_atom_unreachable
    (p : str) (fsm : RegexFSM) (j i : nat) (x q : char) (b : addr) :
  compiled p fsm ->
  p !! j = Some x -> ~ quantifier x ->
  p !! i = Some q -> quantifier q -> j < i ->
  2 <= b < 2 + j ->
  ~ reachable (store fsm) (start_state fsm) b.
Proof.
  intros Hc Hj Hx Hi Hq Hji Hb.
  pose proof (compiled_wf _ _ Hc) as Hwf.
  destruct (compiled_view _ _ Hc) as (fr & Hbuilt & Hs & _ & _ & _ & _ & Hn).
  rewrite Hs.
  pose proof Hbuilt as Hsplit. rewrite <- (take_drop (S j) p) in Hsplit.
  apply built_split in Hsplit as (fr2 & Hb2 & Hst).
  pose proof Hb2 as Hb2'. rewrite (take_S_r _ _ _ Hj) in Hb2'.
  apply built_inv_snoc in Hb2' as (fr1 & Hb1 & Hstep).
  pose proof (lookup_lt_Some _ _ _ Hj) as Hjl.
  assert (Hsz1 : size fr1 = 2 + j) by (eapply size_take; [done|lia]).
  assert (Hab2 : above (2 + j) fr2).
  { destruct Hstep as [k _ _ _ _ Hn2 _ Ht|t -> _ _ _ _ _|t -> _ _ _ _ _];
      [|exfalso; apply Hx; by left|exfalso; apply Hx; by right].
    split; [exists (size fr1); split; [done|lia]|].
    intros u v Hu Hv. rewrite Hn2 in Hv.
    pose proof (built_ok _ _ Hb1) as Hok1.
    assert (anchor fr1 < size fr1).
    { unfold anchor. destruct (tmp_next_state fr1) as [t|] eqn:Et; simpl.
      - by destruct (ok_tmp _ Hok1 t Et).
      - pose proof (ok_size _ Hok1). unfold prev_state, START. lia. }
    rewrite decide_False in Hv by lia.
    rewrite nexts_ge in Hv by (unfold size in *; lia).
    by apply elem_of_nil in Hv. }
  destruct (steps_above (2 + j) _ _ _ _ Hb2 ltac:(rewrite (step_size _ _ _ Hstep); lia)
              Hab2 Hst) as ([(t & Et & Ht) Hab] & _ & Hstart).
  destruct Hstart as (a & Ha & Hla).
  { exists q. split; [|done]. apply (list_elem_of_lookup_2 _ (i - S j)).
    rewrite lookup_drop. by replace (S j + (i - S j)) with i by lia. }
  assert (Hanchor : anchor fr = t) by (unfold anchor; by rewrite Et).
  assert (Hinv : forall v, reachable (store fsm) START v ->
                           v = START \/ v = TERMINAL \/ 2 + j <= v).
  { induction 1 as [|u v _ IH Hv]; [auto|].
    rewrite Hn, Hanchor in Hv.
    assert (Hv' : v ∈ nexts (f_store fr) u \/ (u = t /\ v = TERMINAL)).
    { destruct (decide (u = t)) as [->|]; [|auto].
      apply elem_of_app in Hv as [Hv|Hv]; [auto|].
      apply list_elem_of_singleton in Hv. auto. }
    destruct Hv' as [Hv'|[_ ->]]; [|auto].
    destruct IH as [->|[->|Hu]].
    - rewrite Ha in Hv'. apply list_elem_of_singleton in Hv' as ->. auto.
    - exfalso.
      assert (Ht1 : v ∈ nexts (store fsm) TERMINAL).
      { rewrite Hn, Hanchor. destruct (decide (TERMINAL = t)); [|done].
        apply elem_of_app. by left. }
      rewrite (wf_nexts_terminal _ Hwf) in Ht1. by apply elem_of_nil in Ht1.
    - right. right. by eapply Hab. }
  intros Hr. apply Hinv in Hr. unfold START, TERMINAL in Hr. lia.
Qed.

Lemma states_before_quantified_atom_unreachable_witness :
  exists fsm, compiled (str_of "abc+d") fsm /\
    ~ reachable (store fsm) (start_state fsm) 3.
Proof.
  eexists. split; [vm_compute; reflexivity|].
  apply (states_before_quantified_atom_unreachable (str_of "abc+d") _ 2 3 99%N PLUS);
    try (vm_compute; reflexivity); try lia.
  - intros [H|H]; discriminate H.
  - by right.
Defined.

Lemma chain_reachable p fsm pos :
  Forall (fun c => ~ quantifier c) p -> compiled p fsm -> pos <= length p ->
  reachable (store fsm) START (addr_at pos).
Proof.
  intros Hq Hc. induction pos as [|pos IH]; intros Hpos; [apply reach_here|].
  apply (reach_next _ _ (addr_at pos)); [apply IH; lia|].
  rewrite (chain_final p fsm pos Hq Hc) by lia.
  rewrite decide_True by lia. by left.
Qed.

(** X8: when the pattern has no quantifier, every object of the compiled
    automaton, the terminal state included, can be reached from the start
    state. *)
Theorem quantifier_free_all_reachable (p : str) (fsm : RegexFSM) (a : addr) :
  Forall (fun c => ~ quantifier c) p -> compiled p fsm ->
  a < length (store fsm) ->
  reachable (store fsm) (start_state fsm) a.
Proof.
  intros Hq Hc Ha.
  destruct (chain_classes _ _ Hq Hc) as (Hlen & _ & -> & _).
  destruct a as [|[|a]].
  - apply reach_here.
  - apply (reach_next _ _ (addr_at (length p)));
      [by apply (chain_reachable p)|].
    rewrite (chain_final p fsm (length p) Hq Hc) by lia.
    rewrite decide_False by lia. by left.
  - apply (chain_reachable p fsm (S a)); [done|done|lia].
Qed.

Lemma quantifier_free_all_reachable_witness :
  exists fsm, compiled (str_of "a.c") fsm /\
    reachable (store fsm) (start_state fsm) 4.
Proof.
  eexists. split; [vm_compute; reflexivity|].
  apply (quantifier_free_all_reachable (str_of "a.c")).
  - repeat constructor; intros [H|H]; discriminate H.
  - vm_compute; reflexivity.
  - vm_compute; lia.
Defined.

Lemma built_edges_ge2 p fr u v :
  built p fr -> v ∈ nexts (f_store fr) u -> 2 <= v.
Proof.
  intros Hb. revert u v. induction Hb as [|p c fr fr' Hb IH Hs]; intros u v Hv.
  - unfold nexts in Hv. simpl in Hv.
    destruct u as [|[|u]]; simpl in Hv; by apply elem_of_nil in Hv.
  - pose proof (built_ok _ _ Hb) as Hok. pose proof (ok_size _ Hok) as Hsz.
    destruct Hs as [k _ _ _ _ Hn _ _|t _ Et _ Hn _ _|t _ Et _ Hn _ _];
      rewrite Hn in Hv.
    + destruct (decide (u = anchor fr)); [|by eapply IH].
      apply elem_of_app in Hv as [Hv|Hv]; [by eapply IH|].
      apply list_elem_of_singleton in Hv. lia.
    + destruct (ok_tmp _ Hok t Et).
      destruct (decide (u = size fr)).
      { apply elem_of_cons in Hv as [->|Hv]; [lia|].
        apply list_elem_of_singleton in Hv. lia. }
      destruct (decide (u = START)); [|by eapply IH].
      apply elem_of_insert_inv in Hv as [->|Hv]; [lia|by eapply IH].
    + destruct (ok_tmp _ Hok t Et).
      destruct (decide (u = t)) as [->|].
      { apply elem_of_app in Hv as [Hv|Hv]; [by eapply IH|].
        apply list_elem_of_singleton in Hv. lia. }
      destruct (decide (u = size fr)).
      { apply list_elem_of_singleton in Hv. lia. }
      destruct (decide (u = START)); [|by eapply IH].
      apply elem_of_insert_inv in Hv as [->|Hv]; [lia|by eapply IH].
Qed.

(** In the finished automaton the terminal state is a successor of one
    state only: the one the loop ended on. *)
Lemma terminal_edge p fr fsm u :
  built p fr -> finish fr = Ok fsm ->
  (TERMINAL ∈ nexts (store fsm) u <-> u = anchor fr).
Proof.
  intros Hb Hf.
  destruct (finish_spec fr (built_ok _ _ Hb)) as (h & Hh & _ & _ & Hn).
  rewrite Hh in Hf. injection Hf as <-. simpl. rewrite Hn.
  destruct (decide (u = anchor fr)) as [->|Hu].
  - split; [done|]. intros _. apply elem_of_app. right. by left.
  - split; [|done]. intros H. apply (built_edges_ge2 _ _ _ _ Hb) in H.
    unfold TERMINAL in H. lia.
Qed.

Lemma accepting_empty_input fsm :
  (exists it, moves fsm [] (start_state fsm, 0) it /\ accepting fsm [] it) <->
  accepting fsm [] (start_state fsm, 0).
Proof.
  split.
  - intros (it & Hm & Ha). by apply moves_end in Hm as ->.
  - intros Ha. exists (start_state fsm, 0). split; [apply moves_here|done].
Qed.

(** X9: on a compiled automaton [check_string] accepts the empty input
    exactly when the pattern is empty or ends in [*], whatever precedes
    the [*]. *)
Theorem empty_input_accepted (p : str) (fsm : RegexFSM) :
  compiled p fsm ->
  (returns fsm [] true <-> p = [] \/ last p = Some STAR).
Proof.
  intros Hc. pose proof (compiled_wf _ _ Hc) as Hwf.
  rewrite (returns_empty_search fsm Hwf).
  rewrite accepting_empty_input.
  destruct (compiled_inv _ _ Hc) as (fr & Hb & Hf).
  pose proof (fun u => terminal_edge _ _ _ u Hb Hf) as Hterm.
  pose proof (built_ok _ _ Hb) as Hok.
  destruct (finish_spec fr Hok) as (h & Hh & Hcl & _ & Hn).
  rewrite Hh in Hf. injection Hf as <-.
  unfold accepting. simpl in *.
  destruct p as [|c p' _] using rev_ind.
  - inversion Hb as [E|p0 c0 fr0 fr1 _ _ E]; [|by destruct p0].
    subst fr. split; [auto|]. intros _. split; [done|]. left. by apply Hterm.
  - rewrite last_snoc.
    apply built_inv_snoc in Hb as (fr1 & Hb1 & Hstep).
    pose proof (built_ok _ _ Hb1) as Hok1.
    pose proof (built_start_edges _ _ Hb1) as Hle1.
    assert (Hanc : 2 <= anchor fr).
    { unfold anchor. destruct (tmp_next_state fr) as [t|] eqn:Et.
      - simpl. by destruct (ok_tmp _ Hok t Et).
      - destruct Hstep as [k _ _ _ _ _ _ E|t _ _ _ _ _ E|t _ _ _ _ _ E];
          by rewrite Et in E. }
    assert (Hst : nexts h START = nexts (f_store fr) START).
    { rewrite Hn. unfold START in *. by rewrite decide_False by lia. }
    assert (Hmid : forall k, classes (f_store fr) = classes (f_store fr1) ++ [k] ->
                     classes h !! size fr1 = Some k).
    { intros k E. rewrite Hcl, E. apply list_lookup_middle.
      by rewrite classes_length. }
    split.
    + intros [_ [H0|(n & t & Hin & Hcn & Hnt)]].
      { apply Hterm in H0. unfold START in *. lia. }
      right. f_equal. apply Hterm in Hnt. subst n.
      pose proof Hstep as Hstep0.
      destruct Hstep as [k HS HP Hk Hc' _ _ Htmp|t' HS _ _ _ _ _|t' HP Et Hc' _ _ Htmp];
        [exfalso|done|exfalso].
      * assert (anchor fr = size fr1) as Ha by (unfold anchor; by rewrite Htmp).
        rewrite Ha, (Hmid _ Hc') in Hcn. injection Hcn as ->.
        by destruct (init_next_state_class _ _ Hk).
      * assert (Hs' : nexts (f_store fr) START = [size fr1]).
        { apply (step_start_quantifier fr1 c fr Hok1 Hle1 Hstep0). by right. }
        rewrite Hst, Hs' in Hin. apply list_elem_of_singleton in Hin.
        assert (anchor fr = t') as Ha by (unfold anchor; by rewrite Htmp).
        destruct (ok_tmp _ Hok1 t' Et). lia.
    + intros [H|H]; [by destruct p'|]. injection H as ->.
      pose proof Hstep as Hstep0.
      destruct Hstep as [k HS _ _ _ _ _ _|t' _ Et Hc' Hn' Hsts Htmp|t' HP _ _ _ _ _];
        [done| |done].
      assert (Hs' : nexts (f_store fr) START = [size fr1]).
      { apply (step_start_quantifier fr1 STAR fr Hok1 Hle1 Hstep0). by left. }
      split; [done|]. right. exists (size fr1), t'.
      rewrite Hst, Hs'. split; [by left|]. split; [by apply Hmid|].
      apply Hterm. unfold anchor. by rewrite Htmp.
Qed.

Lemma empty_input_accepted_witness :
  exists fsm, compiled (str_of "ab*") fsm /\
    (returns fsm [] true <-> str_of "ab*" = [] \/ last (str_of "ab*") = Some STAR).
Proof.
  eexists. split; [vm_compute; reflexivity|].
  apply (empty_input_accepted (str_of "ab*")). vm_compute; reflexivity.
Defined.

(** While the loop runs, an atom leads to atoms only, none older than
    itself. *)
Lemma built_atom_edges p fr u v ku :
  built p fr ->
  classes (f_store fr) !! u = Some ku -> is_atom_class ku = true ->
  v ∈ nexts (f_store fr) u ->
  u <= v /\ exists kv, classes (f_store fr) !! v = Some kv /\ is_atom_class kv = true.
Proof.
  intros Hb. revert u v ku.
  induction Hb as [|p c fr fr' Hb IH Hs]; intros u v ku Hu Hku Hv.
  - unfold nexts in Hv. simpl in Hv.
    destruct u as [|[|u]]; simpl in Hv; by apply elem_of_nil in Hv.
  - pose proof (built_ok _ _ Hb) as Hok.
    pose proof (built_wf_classes _ _ Hb) as Hwf.
    destruct (step_classes _ _ _ Hs) as (k & Hc).
    assert (Hold : u < size fr -> v ∈ nexts (f_store fr) u ->
              u <= v /\ exists kv, classes (f_store fr') !! v = Some kv /\
                                   is_atom_class kv = true).
    { intros Hul Hv'. rewrite Hc in Hu.
      rewrite lookup_app_l in Hu by (by rewrite classes_length).
      destruct (IH _ _ _ Hu Hku Hv') as (Hle & kv & Hkv & Ha).
      split; [done|]. exists kv. split; [|done].
      rewrite Hc. by apply lookup_app_l_Some. }
    assert (Hnew : nexts (f_store fr) (size fr) = []) by (by apply nexts_ge).
    assert (Hul : u < size fr \/ (u = size fr /\ k = ku)).
    { pose proof (lookup_lt_Some _ _ _ Hu) as Hl.
      rewrite Hc, length_app, classes_length in Hl. simpl in Hl.
      destruct (decide (u = size fr)) as [->|]; [right|left; unfold size in *; lia].
      split; [done|]. rewrite Hc, list_lookup_middle in Hu by (by rewrite classes_length).
      by injection Hu. }
    destruct Hs as [k' _ _ Hk' Hc' Hn _ _|t _ Et Hc' Hn _ _|t _ Et Hc' Hn _ _];
      rewrite Hn in Hv; rewrite Hc in Hc'; apply app_inj_tail in Hc' as [_ ->].
    + assert (Hal : anchor fr < size fr).
      { unfold anchor. destruct (tmp_next_state fr) as [t|] eqn:Et; simpl.
        - by destruct (ok_tmp _ Hok t Et).
        - pose proof (ok_size _ Hok). unfold prev_state, START. lia. }
      destruct (decide (u = anchor fr)) as [->|Hne].
      * apply elem_of_app in Hv as [Hv|Hv]; [by apply Hold|].
        apply list_elem_of_singleton in Hv as ->. split; [lia|].
        exists k'. split; [|by destruct (init_next_state_class _ _ Hk') as [-> | ->]].
        rewrite Hc. apply list_lookup_middle. by rewrite classes_length.
      * destruct Hul as [Hul|[-> _]]; [by apply Hold|].
        rewrite Hnew in Hv. by apply elem_of_nil in Hv.
    + destruct Hul as [Hul|[-> <-]]; [|done].
      rewrite decide_False in Hv by lia.
      destruct (decide (u = START)) as [->|]; [|by apply Hold].
      destruct Hwf as (Hcs0 & _). rewrite Hc in Hu.
      rewrite lookup_app_l in Hu by (by rewrite classes_length).
      rewrite Hcs0 in Hu. by injection Hu as <-.
    + destruct Hul as [Hul|[-> <-]]; [|done].
      destruct (ok_tmp _ Hok t Et).
      destruct (decide (u = t)) as [->|].
      { apply elem_of_app in Hv as [Hv|Hv]; [by apply Hold|].
        apply list_elem_of_singleton in Hv as ->. split; [done|].
        exists ku. by split. }
      rewrite decide_False in Hv by lia.
      destruct (decide (u = START)) as [->|]; [|by apply Hold].
      destruct Hwf as (Hcs0 & _). rewrite Hc in Hu.
      rewrite lookup_app_l in Hu by (by rewrite classes_length).
      rewrite Hcs0 in Hu. by injection Hu as <-.
Qed.

Lemma edge_order_grows p fsm u v :
  compiled p fsm -> v ∈ nexts (store fsm) u -> u <> v ->
  edge_order (classes (store fsm)) u < edge_order (classes (store fsm)) v.
Proof.
  intros Hc Hv Hne. pose proof (compiled_wf _ _ Hc) as Hwf.
  pose proof (wf_cls _ Hwf) as Hcls.
  destruct (wf_edges _ Hwf _ _ Hv) as (Hvl & Hv0 & Hu).
  destruct (lookup_lt_is_Some_2 _ _ Hvl) as [kv Hkv].
  assert (Hkv0 : kv <> StartState).
  { intros ->. by apply (wf_class_start _ _ Hcls) in Hkv. }
  assert (Hrep : forall t, kv = StarState t \/ kv = PlusState t -> 2 <= t < v).
  { intros t [-> | ->]; eapply wf_class_repeat; eauto. }
  unfold edge_order. rewrite Hkv.
  destruct (classes (store fsm) !! u) as [ku|] eqn:Eu; [|done].
  pose proof (lookup_lt_Some _ _ _ Eu) as Hul.
  destruct ku as [| | | |tu|tu]; try done.
  - destruct kv; try done; lia.
  - (* a DotState *)
    destruct (compiled_inv _ _ Hc) as (fr & Hb & Hf).
    destruct (finish_spec fr (built_ok _ _ Hb)) as (h & Hh & Hcl & _ & Hn).
    rewrite Hh in Hf. injection Hf as <-. simpl in *.
    rewrite Hn in Hv. rewrite Hcl in *.
    assert (Hv' : v ∈ nexts (f_store fr) u \/ v = TERMINAL).
    { destruct (decide (u = anchor fr)); [|auto].
      apply elem_of_app in Hv as [Hv|Hv]; [auto|].
      apply list_elem_of_singleton in Hv. auto. }
    destruct Hv' as [Hv'| ->].
    + destruct (built_atom_edges _ _ _ _ _ Hb Eu eq_refl Hv') as (Hle & kv' & Hkv' & Ha).
      rewrite Hkv in Hkv'. injection Hkv' as <-.
      destruct kv; try done; lia.
    + destruct Hcls as (_ & H1 & _). rewrite H1 in Hkv. injection Hkv as <-. lia.
  - (* an AsciiState *)
    destruct (compiled_inv _ _ Hc) as (fr & Hb & Hf).
    destruct (finish_spec fr (built_ok _ _ Hb)) as (h & Hh & Hcl & _ & Hn).
    rewrite Hh in Hf. injection Hf as <-. simpl in *.
    rewrite Hn in Hv. rewrite Hcl in *.
    assert (Hv' : v ∈ nexts (f_store fr) u \/ v = TERMINAL).
    { destruct (decide (u = anchor fr)); [|auto].
      apply elem_of_app in Hv as [Hv|Hv]; [auto|].
      apply list_elem_of_singleton in Hv. auto. }
    destruct Hv' as [Hv'| ->].
    + destruct (built_atom_edges _ _ _ _ _ Hb Eu eq_refl Hv') as (Hle & kv' & Hkv' & Ha).
      rewrite Hkv in Hkv'. injection Hkv' as <-.
      destruct kv; try done; lia.
    + destruct Hcls as (_ & H1 & _). rewrite H1 in Hkv. injection Hkv as <-. lia.
  - destruct Hu as [Hu|(k & Hk & Hs)].
    + destruct kv; try done; lia.
    + rewrite Hkv in Hk. injection Hk as <-. destruct kv; try done; lia.
  - destruct Hu as [Hu|(k & Hk & Hs)].
    + destruct kv; try done; lia.
    + rewrite Hkv in Hk. injection Hk as <-. destruct kv; try done; lia.
Qed.

Lemma reachable_order p fsm a b :
  compiled p fsm -> reachable (store fsm) a b ->
  a = b \/ edge_order (classes (store fsm)) a < edge_order (classes (store fsm)) b.
Proof.
  intros Hc. induction 1 as [|b c _ IH Hv]; [auto|].
  destruct (decide (b = c)) as [<-|Hne]; [done|].
  pose proof (edge_order_grows _ _ _ _ Hc Hv Hne).
  destruct IH as [->|IH]; [auto|]. right. lia.
Qed.

(** X10: in a compiled automaton the only cycles are self-loops: two
    different states are never each reachable from the other. *)
Theorem only_self_loops (p : str) (fsm : RegexFSM) (a b : addr) :
  compiled p fsm ->
  reachable (store fsm) a b -> reachable (store fsm) b a -> a = b.
Proof.
  intros Hc Hab Hba.
  destruct (reachable_order _ _ _ _ Hc Hab) as [?|H1]; [done|].
  destruct (reachable_order _ _ _ _ Hc Hba) as [?|H2]; [done|]. lia.
Qed.

Lemma only_self_loops_witness :
  exists fsm, compiled (str_of "a+b*") fsm /\ 2 = 2.
Proof.
  eexists. split; [vm_compute; reflexivity|].
  eapply (only_self_loops (str_of "a+b*")).
  - vm_compute; reflexivity.
  - apply (reach_next _ _ 2); [apply reach_here|]. vm_compute. by left.
  - apply reach_here.
Defined.

Lemma atom_init x :
  isascii x = true ->
  exists k, init_next_state x = Ok k /\ is_atom_class k = true.
Proof.
  intros Ha. unfold init_next_state. destruct (x =? DOT)%N; [by exists DotState|].
  rewrite Ha. by eexists.
Qed.

Lemma compiled_atom_star x fsm :
  isascii x = true -> ~ quantifier x -> compiled [x; STAR] fsm ->
  exists k, init_next_state x = Ok k /\
    fsm = atom_star_fsm k.
Proof.
  intros Ha Hq Hc. destruct (atom_init x Ha) as (k & Hk & _).
  exists k. split; [done|].
  unfold compiled, RegexFSM_init in Hc. simpl in Hc. unfold loop_body at 2 in Hc.
  assert (HS : (x =? STAR)%N = false) by (apply N.eqb_neq; intros ->; apply Hq; by left).
  assert (HP : (x =? PLUS)%N = false) by (apply N.eqb_neq; intros ->; apply Hq; by right).
  rewrite HS, HP, Hk in Hc. vm_compute in Hc. by injection Hc as <-.
Qed.

Lemma compiled_atom_plus x fsm :
  isascii x = true -> ~ quantifier x -> compiled [x; PLUS] fsm ->
  exists k, init_next_state x = Ok k /\
    fsm = atom_plus_fsm k.
Proof.
  intros Ha Hq Hc. destruct (atom_init x Ha) as (k & Hk & _).
  exists k. split; [done|].
  unfold compiled, RegexFSM_init in Hc. simpl in Hc. unfold loop_body at 2 in Hc.
  assert (HS : (x =? STAR)%N = false) by (apply N.eqb_neq; intros ->; apply Hq; by left).
  assert (HP : (x =? PLUS)%N = false) by (apply N.eqb_neq; intros ->; apply Hq; by right).
  rewrite HS, HP, Hk in Hc. vm_compute in Hc. by injection Hc as <-.
Qed.

Lemma moves_invariant fsm s (I : addr * nat -> Prop) :
  (forall it1 it2, I it1 -> move fsm s it1 it2 -> I it2) ->
  forall it1 it2, I it1 -> moves fsm s it1 it2 -> I it2.
Proof. intros Hstep it1 it2 HI Hm. induction Hm; eauto. Qed.

Lemma moves_trans fsm s it1 it2 it3 :
  moves fsm s it1 it2 -> moves fsm s it2 it3 -> moves fsm s it1 it3.
Proof. induction 1; [done|]. intros. eapply moves_step; eauto. Qed.

Lemma handles_check_self x k h a c :
  init_next_state x = Ok k -> classes h !! a = Some k ->
  (check_self h a c = Ok true <-> handles x c).
Proof.
  intros Hk Ha. destruct (atom_check_self _ _ _ _ c Hk Ha) as [-> _].
  unfold handles. split.
  - intros [= H]. apply orb_true_iff in H as [H|H]; apply N.eqb_eq in H; auto.
  - intros [H|H]; f_equal; apply orb_true_iff; [left|right]; by apply N.eqb_eq.
Qed.

Lemma take_all_handled x (s : str) pos c :
  s !! pos = Some c -> Forall (handles x) (take pos s) -> handles x c ->
  Forall (handles x) (take (pos + 1) s).
Proof.
  intros Hc Hf Hh. rewrite Nat.add_1_r, (take_S_r _ _ _ Hc).
  apply Forall_app. split; [done|]. by apply Forall_singleton.
Qed.

Section AtomStar.
Variable x : char.
Variable k : State_class.
Hypothesis Hk : init_next_state x = Ok k.

Lemma star_check_self a c :
  a = 2 \/ a = 3 -> (check_self (store (atom_star_fsm k)) a c = Ok true <-> handles x c).
Proof using Hk.
  intros [-> | ->].
  - by apply (handles_check_self x k).
  - assert (check_self (store (atom_star_fsm k)) 3 c = check_self (store (atom_star_fsm k)) 2 c) as ->.
    { unfold check_self. pose proof budget_ge2 as Hb.
      destruct check_self_budget as [|[|d]]; [lia|lia|]. simpl.
      by destruct (init_next_state_class _ _ Hk) as [-> | ->]. }
    by apply (handles_check_self x k).
Qed.

Lemma star_run s pos :
  Forall (handles x) s -> 1 <= pos <= length s ->
  moves (atom_star_fsm k) s (3, pos) (3, length s).
Proof using Hk.
  intros Hf. remember (length s - pos) as d eqn:Ed.
  revert pos Ed. induction d as [|d IH]; intros pos Ed Hpos.
  - replace pos with (length s) by lia. apply moves_here.
  - destruct (lookup_lt_is_Some_2 s pos) as [c Hc]; [lia|].
    apply (moves_step _ _ _ (3, pos + 1)); [|apply IH; lia].
    apply (move_consume _ _ _ _ c); [done| |].
    + unfold nexts. simpl. right. by left.
    + apply star_check_self; [auto|].
      by apply (proj1 (Forall_lookup _ _) Hf pos).
Qed.

Lemma atom_star_language s :
  (exists it, moves (atom_star_fsm k) s (start_state (atom_star_fsm k), 0) it /\ accepting (atom_star_fsm k) s it) <->
  Forall (handles x) s.
Proof using Hk.
  split.
  - intros (it & Hm & Ha).
    set (I := fun it : addr * nat =>
                (it = (0, 0)) \/
                (it.1 = 3 /\ Forall (handles x) (take it.2 s)) \/
                it.1 = 2 \/ it.1 = 1).
    assert (HI : I it).
    { apply (moves_invariant (atom_star_fsm k) s I) with (it1 := (0, 0)); [|by left|done].
      clear Hm Ha. intros it1 it2 HI1 Hmv.
      destruct Hmv as [a pos c n Hc Hn Hcs|a pos c n t s' Hc Hn Hcn Hs' Hne];
        unfold I in *; simpl in *.
      - destruct HI1 as [Heq|[[-> Hf]|[-> | ->]]];
          [injection Heq as -> ->| | |]; unfold nexts in Hn; simpl in Hn.
        + apply list_elem_of_singleton in Hn as ->. right. left.
          split; [done|]. apply (take_all_handled x s 0 c); [done|done|].
          by apply (star_check_self 3 c); auto.
        + apply elem_of_cons in Hn as [->|Hn]; [auto|].
          apply elem_of_cons in Hn as [->|Hn];
            [|apply list_elem_of_singleton in Hn as ->; auto].
          right. left. split; [done|].
          apply (take_all_handled x s pos c); [done|done|].
          by apply (star_check_self 3 c); auto.
        + by apply elem_of_nil in Hn.
        + by apply elem_of_nil in Hn.
      - assert (n = 3) as ->.
        { destruct HI1 as [Heq|[[-> Hf]|[-> | ->]]];
            [injection Heq as -> ->| | |]; unfold nexts in Hn; simpl in Hn.
          - by apply list_elem_of_singleton in Hn.
          - apply elem_of_cons in Hn as [->|Hn].
            { simpl in Hcn. injection Hcn as ->.
              by destruct (init_next_state_class _ _ Hk). }
            apply elem_of_cons in Hn as [->|Hn]; [done|].
            apply list_elem_of_singleton in Hn as ->. done.
          - by apply elem_of_nil in Hn.
          - by apply elem_of_nil in Hn. }
        unfold nexts in Hs'. simpl in Hs'.
        apply elem_of_cons in Hs' as [->|Hs']; [auto|].
        apply elem_of_cons in Hs' as [->|Hs']; [done|].
        apply list_elem_of_singleton in Hs' as ->. auto. }
    destruct Ha as [Hend Hacc]. unfold I in HI.
    destruct HI as [->|[[_ Hf]|Hdead]].
    + simpl in Hend. by destruct s.
    + rewrite Hend, firstn_all in Hf. done.
    + exfalso. destruct it as [a pos]. simpl in *.
      destruct Hacc as [Ht|(n & t & Hn & _)];
        destruct Hdead as [-> | ->]; unfold nexts in *; simpl in *;
        by apply elem_of_nil in Ht || by apply elem_of_nil in Hn.
  - intros Hf. destruct s as [|c s'] eqn:Es.
    + exists (0, 0). split; [apply moves_here|]. split; [done|].
      right. exists 3, 2. unfold nexts. simpl.
      split; [by left|]. split; [done|]. right. right. by left.
    + rewrite <- Es in *. exists (3, length s). split.
      * apply (moves_step _ _ _ (3, 0 + 1)).
        -- apply (move_consume _ _ _ _ c); [by rewrite Es| |].
           ++ unfold nexts. simpl. by left.
           ++ apply star_check_self; [auto|].
              apply (proj1 (Forall_lookup _ _) Hf 0). by rewrite Es.
        -- apply star_run; [done|]. rewrite Es. simpl. lia.
      * split; [done|]. left. unfold nexts. simpl. right. right. by left.
Qed.
End AtomStar.

Lemma returns_true_search fsm s :
  wf fsm -> length (store fsm) <= check_self_budget ->
  (returns fsm s true <->
   exists it, moves fsm s (start_state fsm, 0) it /\ accepting fsm s it).
Proof.
  intros Hwf Hfit. rewrite (wf_returns_search fsm s true Hwf Hfit).
  split; [intros H; by apply H|by intros H].
Qed.

(** An atom and a quantifier make four objects, which the frames of
    [check_self] outnumber. *)
Lemma atom_quantifier_fits x q fsm :
  compiled [x; q] fsm -> length (store fsm) <= check_self_budget.
Proof.
  intros Hc. rewrite (compiled_length _ _ Hc). simpl.
  pose proof budget_ge4. lia.
Qed.

(** X11: for an atom [x] the automaton of the pattern [x*] accepts exactly
    the inputs all of whose characters [x] handles, the empty input
    included. *)
Theorem atom_star_accepts (x : char) (fsm : RegexFSM) (s : str) :
  isascii x = true -> ~ quantifier x -> compiled [x; STAR] fsm ->
  (returns fsm s true <-> Forall (handles x) s).
Proof.
  intros Ha Hq Hc. pose proof (compiled_wf _ _ Hc) as Hwf.
  rewrite (returns_true_search _ _ Hwf (atom_quantifier_fits _ _ _ Hc)).
  destruct (compiled_atom_star x fsm Ha Hq Hc) as (k & Hk & ->).
  by apply (atom_star_language x k).
Qed.

Lemma atom_star_accepts_witness :
  exists fsm, compiled [DOT; STAR] fsm /\
    (returns fsm (str_of "xyz") true <-> Forall (handles DOT) (str_of "xyz")).
Proof.
  eexists. split; [vm_compute; reflexivity|].
  apply (atom_star_accepts DOT); [reflexivity| |vm_compute; reflexivity].
  intros [H|H]; discriminate H.
Defined.

Section AtomPlus.
Variable x : char.
Variable k : State_class.
Hypothesis Hk : init_next_state x = Ok k.

Lemma plus_check_self a c :
  a = 2 \/ a = 3 -> (check_self (store (atom_plus_fsm k)) a c = Ok true <-> handles x c).
Proof using Hk.
  intros [-> | ->].
  - by apply (handles_check_self x k).
  - assert (check_self (store (atom_plus_fsm k)) 3 c = check_self (store (atom_plus_fsm k)) 2 c) as ->.
    { unfold check_self. pose proof budget_ge2 as Hb.
      destruct check_self_budget as [|[|d]]; [lia|lia|]. simpl.
      by destruct (init_next_state_class _ _ Hk) as [-> | ->]. }
    by apply (handles_check_self x k).
Qed.

Lemma plus_no_star n t :
  n = 1 \/ n = 2 \/ n = 3 -> classes (store (atom_plus_fsm k)) !! n = Some (StarState t) -> False.
Proof using Hk.
  intros [-> |[-> | ->]]; simpl; intros [= H]; try done.
  by destruct (init_next_state_class _ _ Hk) as [E|E]; rewrite E in H.
Qed.

Lemma plus_run s pos :
  Forall (handles x) s -> 2 <= pos <= length s ->
  moves (atom_plus_fsm k) s (2, pos) (2, length s).
Proof using Hk.
  intros Hf. remember (length s - pos) as d eqn:Ed.
  revert pos Ed. induction d as [|d IH]; intros pos Ed Hpos.
  - replace pos with (length s) by lia. apply moves_here.
  - destruct (lookup_lt_is_Some_2 s pos) as [c Hc]; [lia|].
    apply (moves_step _ _ _ (2, pos + 1)); [|apply IH; lia].
    apply (move_consume _ _ _ _ c); [done| |].
    + unfold nexts. simpl. by left.
    + apply plus_check_self; [auto|].
      by apply (proj1 (Forall_lookup _ _) Hf pos).
Qed.

Lemma atom_plus_language s :
  (exists it, moves (atom_plus_fsm k) s (start_state (atom_plus_fsm k), 0) it /\ accepting (atom_plus_fsm k) s it) <->
  2 <= length s /\ Forall (handles x) s.
Proof using Hk.
  split.
  - intros (it & Hm & Ha).
    set (I := fun it : addr * nat =>
                (it = (0, 0)) \/
                (it = (3, 1) /\ Forall (handles x) (take 1 s)) \/
                (it.1 = 2 /\ 2 <= it.2 /\ Forall (handles x) (take it.2 s)) \/
                it.1 = 1).
    assert (HI : I it).
    { apply (moves_invariant (atom_plus_fsm k) s I) with (it1 := (0, 0)); [|by left|done].
      clear Hm Ha. intros it1 it2 HI1 Hmv.
      destruct Hmv as [a pos c n Hc Hn Hcs|a pos c n t s' Hc Hn Hcn Hs' Hne];
        unfold I in *; simpl in *.
      - destruct HI1 as [Heq|[[Heq Hf]|[(-> & Hp & Hf)| ->]]];
          [injection Heq as -> ->|injection Heq as -> ->| |];
          unfold nexts in Hn; simpl in Hn.
        + apply list_elem_of_singleton in Hn as ->. right. left.
          split; [done|]. apply (take_all_handled x s 0 c); [done|done|].
          by apply (plus_check_self 3 c); auto.
        + apply list_elem_of_singleton in Hn as ->. right. right. left.
          split; [done|]. split; [lia|].
          apply (take_all_handled x s 1 c); [done|done|].
          by apply (plus_check_self 2 c); auto.
        + apply elem_of_cons in Hn as [->|Hn];
            [|apply list_elem_of_singleton in Hn as ->; auto].
          right. right. left. split; [done|]. split; [lia|].
          apply (take_all_handled x s pos c); [done|done|].
          by apply (plus_check_self 2 c); auto.
        + by apply elem_of_nil in Hn.
      - exfalso. apply (plus_no_star n t); [|done].
        destruct HI1 as [Heq|[[Heq Hf]|[(-> & Hp & Hf)| ->]]];
          [injection Heq as -> ->|injection Heq as -> ->| |];
          unfold nexts in Hn; simpl in Hn.
        + apply list_elem_of_singleton in Hn. auto.
        + apply list_elem_of_singleton in Hn. auto.
        + apply elem_of_cons in Hn as [->|Hn]; [auto|].
          apply list_elem_of_singleton in Hn. auto.
        + by apply elem_of_nil in Hn. }
    destruct Ha as [Hend Hacc]. unfold I in HI.
    assert (Hnostar : forall a, a = 0 \/ a = 3 \/ a = 2 \/ a = 1 ->
              ~ exists n t, n ∈ nexts (store (atom_plus_fsm k)) a /\
                  classes (store (atom_plus_fsm k)) !! n = Some (StarState t) /\
                  terminal_state (atom_plus_fsm k) ∈ nexts (store (atom_plus_fsm k)) n).
    { intros a Ha (n & t & Hn & Hcn & _). apply (plus_no_star n t); [|done].
      destruct Ha as [-> |[-> |[-> | ->]]]; unfold nexts in Hn; simpl in Hn.
      - apply list_elem_of_singleton in Hn. auto.
      - apply list_elem_of_singleton in Hn. auto.
      - apply elem_of_cons in Hn as [->|Hn]; [auto|].
        apply list_elem_of_singleton in Hn. auto.
      - by apply elem_of_nil in Hn. }
    destruct HI as [->|[[-> _]|[(Ha & Hp & Hf)|Ha]]].
    + exfalso. destruct Hacc as [Ht|Hs]; [|by apply (Hnostar 0); auto].
      unfold nexts in Ht. simpl in Ht. by apply list_elem_of_singleton in Ht.
    + exfalso. destruct Hacc as [Ht|Hs]; [|by apply (Hnostar 3); auto].
      unfold nexts in Ht. simpl in Ht. by apply list_elem_of_singleton in Ht.
    + rewrite Hend in Hp, Hf. rewrite firstn_all in Hf. done.
    + exfalso. destruct it as [a pos]. simpl in *. subst a.
      destruct Hacc as [Ht|Hs]; [|by apply (Hnostar 1); auto].
      unfold nexts in Ht. simpl in Ht. by apply elem_of_nil in Ht.
  - intros [Hlen Hf].
    destruct (lookup_lt_is_Some_2 s 0) as [c0 Hc0]; [lia|].
    destruct (lookup_lt_is_Some_2 s 1) as [c1 Hc1]; [lia|].
    exists (2, length s). split.
    + apply (moves_step _ _ _ (3, 0 + 1)).
      { apply (move_consume _ _ _ _ c0); [done| |].
        - unfold nexts. simpl. by left.
        - apply plus_check_self; [auto|].
          by apply (proj1 (Forall_lookup _ _) Hf 0). }
      apply (moves_step _ _ _ (2, 1 + 1)).
      { apply (move_consume _ _ _ _ c1); [done| |].
        - unfold nexts. simpl. by left.
        - apply plus_check_self; [auto|].
          by apply (proj1 (Forall_lookup _ _) Hf 1). }
      apply plus_run; [done|]. simpl. lia.
    + split; [done|]. left. unfold nexts. simpl. right. by left.
Qed.
End AtomPlus.

(** X12: for an atom [x] the automaton of the pattern [x+] accepts exactly
    the inputs of at least two characters all of which [x] handles: the
    PlusState consumes one character and the wrapped atom must consume
    another before the terminal state is in reach. *)
Theorem atom_plus_accepts (x : char) (fsm : RegexFSM) (s : str) :
  isascii x = true -> ~ quantifier x -> compiled [x; PLUS] fsm ->
  (returns fsm s true <-> 2 <= length s /\ Forall (handles x) s).
Proof.
  intros Ha Hq Hc. pose proof (compiled_wf _ _ Hc) as Hwf.
  rewrite (returns_true_search _ _ Hwf (atom_quantifier_fits _ _ _ Hc)).
  destruct (compiled_atom_plus x fsm Ha Hq Hc) as (k & Hk & ->).
  by apply (atom_plus_language x k).
Qed.

Lemma atom_plus_accepts_witness :
  exists fsm, compiled [98%N; PLUS] fsm /\
    (returns fsm (str_of "bb") true <->
     2 <= length (str_of "bb") /\ Forall (handles 98%N) (str_of "bb")).
Proof.
  eexists. split; [vm_compute; reflexivity|].
  apply (atom_plus_accepts 98%N); [reflexivity| |vm_compute; reflexivity].
  intros [H|H]; discriminate H.
Defined.

(** Between two pairs joined by moves, every character of the input is
    consumed by a successor state that handles it. *)
Lemma moves_consumed fsm s it1 it2 :
  moves fsm s it1 it2 ->
  it1.2 <= it2.2 /\
  forall i c, it1.2 <= i < it2.2 -> s !! i = Some c ->
    exists a n, n ∈ nexts (store fsm) a /\ check_self (store fsm) n c = Ok true.
Proof.
  induction 1 as [it|it1 it2 it3 Hm _ [Hle IH]].
  - split; [done|]. intros i c Hi. lia.
  - destruct Hm as [a pos c n Hc Hn Hcs|a pos c n t s' Hc Hn Hcn Hs' Hne];
      simpl in *.
    + split; [lia|]. intros i c' Hi Hic.
      destruct (decide (i = pos)) as [->|]; [|apply (IH i c'); [lia|done]].
      rewrite Hc in Hic. injection Hic as <-. eauto.
    + split; [done|]. done.
Qed.

(** X13: an input that a compiled automaton accepts is made of characters
    of its pattern, unless the pattern contains a [.]: no state handles
    any other character. *)
Theorem accepted_characters (p : str) (fsm : RegexFSM) (s : str) (c : char) :
  compiled p fsm -> returns fsm s true -> c ∈ s -> DOT ∈ p \/ c ∈ p.
Proof.
  intros Hc Hr Hcs. pose proof (compiled_wf _ _ Hc) as Hwf.
  apply returns_search in Hr. apply proj1 in Hr.
  destruct (Hr eq_refl) as (it & Hm & [Hend _]). clear Hr.
  apply list_elem_of_lookup_1 in Hcs as [i Hi].
  pose proof (lookup_lt_Some _ _ _ Hi) as Hil.
  destruct (moves_consumed _ _ _ _ Hm) as [_ Hcons].
  destruct (Hcons i c ltac:(simpl; lia) Hi) as (a & n & Hn & Hcs).
  destruct (wf_edges _ Hwf _ _ Hn) as (Hnl & Hn0 & _).
  rewrite classes_length in Hnl.
  assert (Hn1 : n <> TERMINAL).
  { intros ->. destruct (wf_cls _ Hwf) as (_ & H1 & _).
    by rewrite (check_self_terminal _ _ _ H1) in Hcs. }
  destruct (compiled_check_self_rec p fsm n Hc) as (t & Ht & Hans);
    [unfold START, TERMINAL in *; lia|].
  unfold check_self in Hcs.
  destruct (Hans check_self_budget c) as [Hok|[Herr _]];
    [|by rewrite Herr in Hcs].
  rewrite Hok in Hcs. injection Hcs as Hcs.
  apply orb_true_iff in Hcs as [Hd|Hd]; apply N.eqb_eq in Hd; subst; auto.
Qed.

Lemma accepted_characters_witness :
  DOT ∈ str_of "ab*c" \/ 99%N ∈ str_of "ab*c".
Proof.
  eapply (accepted_characters (str_of "ab*c") _ (str_of "bc") 99%N).
  - vm_compute; reflexivity.
  - exists 200. vm_compute; reflexivity.
  - by repeat constructor.
Defined.

Lemma steps_inv_snoc fr p c fr' :
  steps fr (p ++ [c]) fr' -> exists fr1, steps fr p fr1 /\ step fr1 c fr'.
Proof.
  intros H. inversion H as [|fr0 p0 c0 fr1 fr2 Hst Hs]; subst.
  - by destruct p.
  - match goal with
    | E : _ ++ [_] = _ ++ [_] |- _ => apply app_inj_tail in E as [-> ->]
    end.
    eauto.
Qed.

Lemma classes_snoc_aligned d (cs1 cs2 : list State_class) k1 k2 :
  length cs1 = length cs2 + d -> k1 = shift_class d k2 ->
  (forall a, 2 <= a -> cs1 !! (a + d) = shift_class d <$> cs2 !! a) ->
  forall a, 2 <= a ->
    (cs1 ++ [k1]) !! (a + d) = shift_class d <$> (cs2 ++ [k2]) !! a.
Proof.
  intros Hl -> Hcs a Ha.
  destruct (decide (a < length cs2)) as [Hlt|Hge].
  - rewrite !lookup_app_l by lia. by apply Hcs.
  - destruct (decide (a = length cs2)) as [->|Hne].
    + rewrite <- Hl. by rewrite !list_lookup_middle.
    + rewrite !lookup_ge_None_2; [done| |]; rewrite length_app; simpl; lia.
Qed.

Lemma init_next_state_shift d c k :
  init_next_state c = Ok k -> shift_class d k = k.
Proof. intros H. by destruct (init_next_state_class _ _ H) as [-> | ->]. Qed.

Lemma step_aligned d fr1 fr2 c fr1' fr2' :
  frame_ok fr1 -> frame_ok fr2 -> aligned d fr1 fr2 ->
  step fr1 c fr1' -> step fr2 c fr2' -> aligned d fr1' fr2'.
Proof.
  intros Hok1 Hok2 [Hsz (t & Et2 & Et1) Hcl Hnx] Hs1 Hs2.
  destruct (ok_tmp _ Hok2 t Et2) as [Ht2 Htl].
  assert (Ha1 : anchor fr1 = t + d) by (unfold anchor; by rewrite Et1).
  assert (Ha2 : anchor fr2 = t) by (unfold anchor; by rewrite Et2).
  assert (Hlen : length (classes (f_store fr1)) = length (classes (f_store fr2)) + d)
    by (by rewrite !classes_length).
  assert (Hout1 : nexts (f_store fr1) (size fr2 + d) = [])
    by (apply nexts_ge; unfold size in *; lia).
  assert (Hout2 : nexts (f_store fr2) (size fr2) = [])
    by (apply nexts_ge; unfold size in *; lia).
  assert (Hsz' : size fr1' = size fr2' + d).
  { rewrite (step_size _ _ _ Hs1), (step_size _ _ _ Hs2). lia. }
  destruct Hs1 as [k1 HS1 HP1 Hk1 Hc1 Hn1 _ Ht1|t1 HS1 E1 Hc1 Hn1 _ Ht1|t1 HP1 E1 Hc1 Hn1 _ Ht1];
    destruct Hs2 as [k2 HS2 HP2 Hk2 Hc2 Hn2 _ Ht2'|t2 HS2 E2 Hc2 Hn2 _ Ht2'|t2 HP2 E2 Hc2 Hn2 _ Ht2'];
    try congruence;
    try match goal with
        | H1 : c = STAR, H2 : c = PLUS |- _ => rewrite H1 in H2; discriminate H2
        end.
  - (* an atom *)
    rewrite Hk1 in Hk2. injection Hk2 as <-.
    split.
    + done.
    + exists (size fr2). split; [done|]. by rewrite Ht1, Hsz.
    + rewrite Hc1, Hc2. apply classes_snoc_aligned; try done.
      symmetry. by eapply init_next_state_shift.
    + intros u Hu. rewrite Hn1, Hn2, Ha1, Ha2, Hsz.
      destruct (decide (u = t)) as [->|Hne].
      * rewrite !decide_True by done. rewrite fmap_app, Hnx by done. done.
      * rewrite !decide_False by lia. by apply Hnx.
  - (* a star *)
    rewrite Et1 in E1. injection E1 as <-. rewrite Et2 in E2. injection E2 as <-.
    split.
    + done.
    + exists (size fr2). split; [done|]. by rewrite Ht1, Hsz.
    + rewrite Hc1, Hc2. by apply classes_snoc_aligned.
    + intros u Hu. rewrite Hn1, Hn2, Hsz. unfold START.
      destruct (decide (u = size fr2)) as [->|Hne].
      * rewrite !decide_True by done. done.
      * rewrite !decide_False by lia. by apply Hnx.
  - (* a plus *)
    rewrite Et1 in E1. injection E1 as <-. rewrite Et2 in E2. injection E2 as <-.
    split.
    + done.
    + exists t. split; [done|]. by rewrite Ht1.
    + rewrite Hc1, Hc2. by apply classes_snoc_aligned.
    + intros u Hu. rewrite Hn1, Hn2, Hsz. unfold START.
      destruct (decide (u = t)) as [->|Hne].
      * rewrite !decide_True by done. rewrite fmap_app, Hnx by done. done.
      * rewrite (decide_False (P := u + d = t + d)) by lia.
        destruct (decide (u = size fr2)) as [->|Hne'].
        -- rewrite !decide_True by done. done.
        -- rewrite !decide_False by lia. by apply Hnx.
Qed.

Lemma steps_aligned d pa pb fra frb :
  built pa fra -> built pb frb -> aligned d fra frb ->
  forall rest fr1 fr2,
    steps fra rest fr1 -> steps frb rest fr2 ->
    aligned d fr1 fr2 /\
    ((exists q, q ∈ rest /\ quantifier q) ->
     nexts (f_store fr1) START = (fun v => v + d) <$> nexts (f_store fr2) START).
Proof.
  intros Hba Hbb Hal rest.
  induction rest as [|c rest IH] using rev_ind; intros fr1 fr2 Hs1 Hs2.
  - inversion Hs1 as [|? p0 ? ? ? ? ?]; subst; [|by destruct p0].
    inversion Hs2 as [|? p0 ? ? ? ? ?]; subst; [|by destruct p0].
    split; [done|]. intros (q & Hq & _). by apply elem_of_nil in Hq.
  - apply steps_inv_snoc in Hs1 as (fr1m & Hs1 & Hst1).
    apply steps_inv_snoc in Hs2 as (fr2m & Hs2 & Hst2).
    destruct (IH _ _ Hs1 Hs2) as [Halm Hq].
    pose proof (steps_built _ _ _ _ Hba Hs1) as Hb1.
    pose proof (steps_built _ _ _ _ Hbb Hs2) as Hb2.
    pose proof (built_ok _ _ Hb1) as Hok1.
    pose proof (built_ok _ _ Hb2) as Hok2.
    split; [apply (step_aligned d fr1m fr2m c fr1 fr2 Hok1 Hok2 Halm Hst1 Hst2)|].
    intros (q & Hqin & Hqq).
    destruct (decide (c = STAR \/ c = PLUS)) as [Hc|Hc].
    + rewrite (step_start_quantifier _ _ _ Hok1 (built_start_edges _ _ Hb1) Hst1 Hc).
      rewrite (step_start_quantifier _ _ _ Hok2 (built_start_edges _ _ Hb2) Hst2 Hc).
      simpl. by rewrite (al_size _ _ _ Halm).
    + apply elem_of_app in Hqin as [Hqin|Hqin].
      2:{ apply list_elem_of_singleton in Hqin as ->. by destruct Hc. }
      destruct (al_tmp _ _ _ Halm) as (t & Et2 & Et1).
      rewrite (step_start_atom _ _ _ Hok1 ltac:(by rewrite Et1) Hst1 Hc).
      rewrite (step_start_atom _ _ _ Hok2 ltac:(by rewrite Et2) Hst2 Hc).
      apply Hq. by exists q.
Qed.

(** The two constructions right after the shared atom. *)
Lemma aligned_after_atom pre x fra frb :
  ~ quantifier x -> built (pre ++ [x]) fra -> built [x] frb ->
  aligned (length pre) fra frb.
Proof.
  intros Hx Ha Hb.
  apply built_inv_snoc in Ha as (fr0 & Hb0 & Hsa).
  apply (built_inv_snoc []) in Hb as (fr0' & Hb0' & Hsb).
  inversion Hb0' as [E|p0 ? ? ? ? ? E]; [|by destruct p0]. subst fr0'.
  destruct (built_facts _ _ Hb0) as (Hok0 & Hsz0 & _).
  assert (Hanc : anchor fr0 < size fr0).
  { unfold anchor. destruct (tmp_next_state fr0) as [t|] eqn:Et; simpl.
    - by destruct (ok_tmp _ Hok0 t Et).
    - unfold prev_state, START. lia. }
  destruct Hsa as [ka _ _ Hka Hca Hna _ Hta|t -> _ _ _ _ _|t -> _ _ _ _ _];
    [|exfalso; apply Hx; by left|exfalso; apply Hx; by right].
  destruct Hsb as [kb _ _ Hkb Hcb Hnb _ Htb|t HS Et _ _ _ _|t HP Et _ _ _ _];
    [|done..].
  rewrite Hka in Hkb. injection Hkb as <-.
  assert (Hs0 : size frame0 = 2) by done.
  split.
  - unfold size in *. rewrite <- (classes_length (f_store fra)), Hca.
    rewrite <- (classes_length (f_store frb)), Hcb.
    rewrite !length_app, !classes_length. simpl. lia.
  - exists 2. split; [done|]. rewrite Hta, Hsz0. f_equal; lia.
  - intros a Ha. rewrite Hca, Hcb.
    destruct (decide (a = 2)) as [->|Hne].
    + replace (2 + length pre) with (length (classes (f_store fr0)))
        by (rewrite classes_length; unfold size in Hsz0; lia).
      rewrite list_lookup_middle by done. simpl.
      by rewrite (init_next_state_shift _ _ _ Hka).
    + rewrite !lookup_ge_None_2; [done| |];
        rewrite length_app, classes_length; simpl; unfold size in Hsz0; lia.
  - intros u Hu. rewrite Hna, Hnb.
    rewrite decide_False by lia.
    rewrite (decide_False (P := u = anchor frame0)) by (unfold anchor; simpl; unfold prev_state, START; lia).
    rewrite !nexts_ge; [done| |]; unfold size in *; simpl; lia.
Qed.

Lemma shift_inj d a b : shift d a = shift d b -> a = b.
Proof. unfold shift. repeat case_decide; lia. Qed.

Lemma shift_low d a : a < 2 -> shift d a = a.
Proof. intros H. unfold shift. by rewrite decide_True. Qed.

Lemma shift_high d a : 2 <= a -> shift d a = a + d.
Proof. intros H. unfold shift. by rewrite decide_False by lia. Qed.

Lemma shift_terminal d a : shift d a = TERMINAL <-> a = TERMINAL.
Proof. unfold shift, TERMINAL. case_decide; lia. Qed.

Lemma fmap_shift d (l : list addr) :
  (forall v, v ∈ l -> 2 <= v) -> shift d <$> l = (fun v => v + d) <$> l.
Proof.
  intros H. apply list_fmap_ext. intros i v Hv.
  apply shift_high, H. by eapply list_elem_of_lookup_2.
Qed.

Lemma shift_class_star d k t :
  shift_class d k = StarState t -> exists t', k = StarState t'.
Proof. destruct k; simpl; intros [=]; eauto. Qed.

Lemma compiled_similar pre x rest fsm1 fsm2 :
  ~ quantifier x -> (exists q, q ∈ rest /\ quantifier q) ->
  compiled (pre ++ x :: rest) fsm1 -> compiled (x :: rest) fsm2 ->
  similar (length pre) fsm1 fsm2.
Proof.
  intros Hx Hq Hc1 Hc2. set (d := length pre).
  pose proof (compiled_wf _ _ Hc1) as Hwf1.
  pose proof (compiled_wf _ _ Hc2) as Hwf2.
  destruct (compiled_inv _ _ Hc1) as (fr1 & Hb1 & Hf1).
  destruct (compiled_inv _ _ Hc2) as (fr2 & Hb2 & Hf2).
  pose proof Hb1 as Hs1. rewrite (cons_middle x pre rest), app_assoc in Hs1.
  apply built_split in Hs1 as (fra & Hba & Hsa).
  pose proof Hb2 as Hs2. change (x :: rest) with ([x] ++ rest) in Hs2.
  apply built_split in Hs2 as (frb & Hbb & Hsb).
  pose proof (aligned_after_atom pre x fra frb Hx Hba Hbb) as Hal0.
  destruct (steps_aligned d _ _ _ _ Hba Hbb Hal0 rest fr1 fr2 Hsa Hsb) as [Hal Hst].
  specialize (Hst Hq).
  destruct Hal as [Hsz (t & Et2 & Et1) Hcl Hnx].
  pose proof (built_ok _ _ Hb1) as Hok1. pose proof (built_ok _ _ Hb2) as Hok2.
  destruct (ok_tmp _ Hok2 t Et2) as [Ht2 Htl].
  destruct (finish_spec fr1 Hok1) as (h1 & Hh1 & Hcl1 & Hl1 & Hn1).
  destruct (finish_spec fr2 Hok2) as (h2 & Hh2 & Hcl2 & Hl2 & Hn2).
  rewrite Hh1 in Hf1. injection Hf1 as <-. rewrite Hh2 in Hf2. injection Hf2 as <-.
  assert (Ha1 : anchor fr1 = t + d) by (unfold anchor; by rewrite Et1).
  assert (Ha2 : anchor fr2 = t) by (unfold anchor; by rewrite Et2).
  assert (Hge : forall u v, v ∈ nexts (f_store fr2) u -> 2 <= v)
    by (intros u v; apply (built_edges_ge2 _ _ _ _ Hb2)).
  split; simpl.
  - lia.
  - intros a Ha. rewrite Hcl1, Hcl2.
    destruct (decide (a < 2)) as [Hlow|Hhigh].
    + rewrite shift_low by done.
      destruct (built_classes _ _ Hb1) as (H10 & H11 & _).
      destruct (built_classes _ _ Hb2) as (H20 & H21 & _).
      unfold START, TERMINAL in *.
      destruct a as [|[|a]]; [by rewrite H10, H20|by rewrite H11, H21|lia].
    + rewrite shift_high by lia. apply Hcl. lia.
  - intros a Ha. rewrite Hn1, Hn2, Ha1, Ha2.
    destruct (decide (a < 2)) as [Hlow|Hhigh].
    + rewrite shift_low by done. rewrite !decide_False by lia.
      destruct a as [|[|a]]; [| |lia].
      * unfold START in Hst. rewrite Hst. symmetry. apply fmap_shift.
        intros v. apply Hge.
      * pose proof (wf_nexts_terminal _ Hwf1) as H1.
        pose proof (wf_nexts_terminal _ Hwf2) as H2.
        simpl in H1, H2. unfold TERMINAL in *.
        rewrite Hn1, Ha1 in H1. rewrite Hn2, Ha2 in H2.
        rewrite decide_False in H1 by lia. rewrite decide_False in H2 by lia.
        by rewrite H1, H2.
    + rewrite shift_high by lia. rewrite Hnx by lia.
      rewrite <- (fmap_shift d (nexts (f_store fr2) a)) by (intros v; apply Hge).
      destruct (decide (a = t)) as [->|Hne].
      * rewrite !decide_True by done. rewrite fmap_app. simpl.
        by rewrite shift_low by (unfold TERMINAL; lia).
      * rewrite decide_False by lia. done.
Qed.

(** The two automata answer alike, frame by frame, and so run out of
    frames together. *)
Lemma similar_check_self_rec d fsm1 fsm2 c :
  wf fsm2 -> similar d fsm1 fsm2 ->
  forall depth a, a < length (store fsm2) ->
    check_self_rec depth (store fsm1) (shift d a) c
    = check_self_rec depth (store fsm2) a c.
Proof.
  intros Hwf2 [_ Hcl _]. induction depth as [|depth IH]; intros a Ha; [done|].
  destruct (lookup_lt_is_Some_2 (classes (store fsm2)) a) as [k Hk];
    [by rewrite classes_length|].
  pose proof (Hcl a Ha) as Hk1. rewrite Hk in Hk1. simpl in Hk1.
  rewrite (check_self_rec_class _ _ _ _ _ Hk), (check_self_rec_class _ _ _ _ _ Hk1).
  destruct k as [| | |sym|t|t]; simpl; try done.
  - destruct (wf_class_repeat _ _ t (wf_cls _ Hwf2) (or_introl Hk)) as [Ht2 Hta].
    rewrite <- (shift_high d t) by lia. apply IH; lia.
  - destruct (wf_class_repeat _ _ t (wf_cls _ Hwf2) (or_intror Hk)) as [Ht2 Hta].
    rewrite <- (shift_high d t) by lia. apply IH; lia.
Qed.

Lemma similar_check_self d fsm1 fsm2 c :
  wf fsm2 -> similar d fsm1 fsm2 ->
  forall a, a < length (store fsm2) ->
    check_self (store fsm1) (shift d a) c = check_self (store fsm2) a c.
Proof. intros Hwf2 Hsim a Ha. unfold check_self. by apply similar_check_self_rec. Qed.

Lemma similar_terminal_in d (l : list addr) :
  TERMINAL ∈ shift d <$> l <-> TERMINAL ∈ l.
Proof.
  rewrite list_elem_of_fmap. split.
  - intros (v & Hv & Hin). symmetry in Hv. apply shift_terminal in Hv. by subst.
  - intros Hin. exists TERMINAL. split; [|done]. symmetry. by apply shift_terminal.
Qed.

Lemma similar_deref d fsm1 fsm2 a :
  similar d fsm1 fsm2 -> a < length (store fsm2) ->
  exists st1 st2,
    deref (store fsm1) (shift d a) = Ok st1 /\ deref (store fsm2) a = Ok st2 /\
    next_states st1 = shift d <$> next_states st2 /\
    is_StarState st1 = is_StarState st2.
Proof.
  intros [_ Hcl Hnx] Ha.
  destruct (lookup_lt_is_Some_2 (store fsm2) a Ha) as [st2 Hst2].
  destruct (lookup_view _ _ _ Hst2) as [Hc2 Hn2].
  pose proof (Hcl a Ha) as Hc1. rewrite Hc2 in Hc1. simpl in Hc1.
  exists (mkState (shift_class d (class st2)) (nexts (store fsm1) (shift d a))), st2.
  split; [by apply deref_view|]. split; [unfold deref; by rewrite Hst2|].
  simpl. split; [by rewrite (Hnx a Ha), Hn2|].
  unfold is_StarState. simpl. by destruct (class st2).
Qed.

Lemma similar_star_to_terminal d fsm1 fsm2 ns :
  wf fsm1 -> wf fsm2 -> similar d fsm1 fsm2 ->
  (forall n, n ∈ ns -> n < length (store fsm2)) ->
  star_to_terminal fsm1 (shift d <$> ns) = star_to_terminal fsm2 ns.
Proof.
  intros Hwf1 Hwf2 Hsim. induction ns as [|n ns IH]; intros Hns; [done|].
  assert (Hn : n < length (store fsm2)) by (apply Hns; by left).
  destruct (similar_deref d fsm1 fsm2 n Hsim Hn) as (st1 & st2 & H1 & H2 & Hnx & Hst).
  rewrite fmap_cons. simpl. rewrite H1, H2. simpl. rewrite Hst.
  rewrite (wf_terminal _ Hwf1), (wf_terminal _ Hwf2), Hnx.
  rewrite (bool_decide_ext _ _ (similar_terminal_in d (next_states st2))).
  rewrite IH; [done|]. intros m Hm. apply Hns. by right.
Qed.

Lemma filter_shift d n (l : list addr) :
  filter (fun s : addr => s ≠ shift d n) (shift d <$> l)
  = shift d <$> filter (fun s : addr => s ≠ n) l.
Proof.
  induction l as [|v l IH]; [done|]. rewrite fmap_cons, !filter_cons.
  destruct (decide (v = n)) as [->|Hne].
  - rewrite !decide_False by (intros H; by apply H). exact IH.
  - rewrite decide_True by (intros E; by apply shift_inj in E).
    rewrite decide_True by done. by rewrite fmap_cons, IH.
Qed.

Lemma similar_successors d fsm1 fsm2 c pos ns :
  wf fsm2 -> similar d fsm1 fsm2 ->
  (forall n, n ∈ ns -> n < length (store fsm2)) ->
  successors (store fsm1) c pos (shift d <$> ns)
  = match successors (store fsm2) c pos ns with
    | Ok new => Ok (prod_map (shift d) id <$> new)
    | Raise e => Raise e
    end.
Proof.
  intros Hwf2 Hsim. induction ns as [|n ns IH]; intros Hns; [done|].
  assert (Hn : n < length (store fsm2)) by (apply Hns; by left).
  destruct (similar_deref d fsm1 fsm2 n Hsim Hn) as (st1 & st2 & H1 & H2 & Hnx & Hst).
  rewrite fmap_cons. simpl.
  rewrite (similar_check_self d fsm1 fsm2 c Hwf2 Hsim n Hn).
  destruct (check_self (store fsm2) n c) as [b|e]; simpl; [|done].
  rewrite H1, H2. simpl. rewrite IH by (intros m Hm; apply Hns; by right).
  destruct (successors (store fsm2) c pos ns) as [more|e]; simpl; [|done].
  f_equal. rewrite !fmap_app. f_equal; [by destruct b|]. f_equal.
  rewrite Hst. destruct (is_StarState st2); [|done].
  rewrite Hnx, filter_shift, <- !list_fmap_compose. done.
Qed.

(** The worklists of the two runs agree, iteration by iteration. *)
Lemma similar_check_loop d fsm1 fsm2 s :
  wf fsm1 -> wf fsm2 -> similar d fsm1 fsm2 ->
  forall fuel q,
    Forall (fun it : addr * nat => it.1 < length (store fsm2)) q ->
    check_loop fuel fsm1 s (prod_map (shift d) id <$> q)
    = check_loop fuel fsm2 s q.
Proof.
  intros Hwf1 Hwf2 Hsim. induction fuel as [|fuel IH]; intros q Hq; [done|].
  destruct q as [|[a pos] rest]; [done|].
  apply Forall_cons_1 in Hq as [Ha Hrest]. simpl in Ha.
  rewrite fmap_cons. change (prod_map (shift d) id (a, pos)) with (shift d a, pos).
  rewrite !check_loop_cons.
  destruct (similar_deref d fsm1 fsm2 a Hsim Ha) as (st1 & st2 & H1 & H2 & Hnx & Hst).
  rewrite H1, H2.
  assert (Hns : forall n, n ∈ next_states st2 -> n < length (store fsm2)).
  { intros n Hn. apply (wf_nexts_lt fsm2 a); [done|].
    by rewrite (proj2 (deref_Ok_view _ _ _ H2)). }
  rewrite (wf_terminal _ Hwf1), (wf_terminal _ Hwf2), Hnx.
  rewrite (bool_decide_ext _ _ (similar_terminal_in d (next_states st2))).
  rewrite (similar_star_to_terminal d fsm1 fsm2 _ Hwf1 Hwf2 Hsim Hns).
  destruct (pos =? length s).
  - destruct (bool_decide _); [done|].
    destruct (star_to_terminal fsm2 (next_states st2)) as [[|]|e]; try done.
    by apply IH.
  - destruct (s !! pos) as [c|]; [|done].
    rewrite (similar_successors d fsm1 fsm2 c pos _ Hwf2 Hsim Hns).
    destruct (successors (store fsm2) c pos (next_states st2)) as [new|e] eqn:En;
      [|done].
    rewrite <- fmap_app. apply IH. apply Forall_app. split; [done|].
    apply Forall_forall. intros it Hit.
    apply (successors_elem _ _ _ _ _ it En) in Hit
      as (n & Hn & [[-> _]|(t & s' & Hcn & -> & Hs' & _)]); simpl.
    + by apply Hns.
    + by eapply wf_nexts_lt.
Qed.

Lemma similar_returns pre rest x fsm1 fsm2 s b :
  ~ quantifier x -> (exists q, q ∈ rest /\ quantifier q) ->
  compiled (pre ++ x :: rest) fsm1 -> compiled (x :: rest) fsm2 ->
  (returns fsm1 s b <-> returns fsm2 s b).
Proof.
  intros Hx Hq Hc1 Hc2.
  pose proof (compiled_wf _ _ Hc1) as Hwf1.
  pose proof (compiled_wf _ _ Hc2) as Hwf2.
  pose proof (compiled_similar pre x rest fsm1 fsm2 Hx Hq Hc1 Hc2) as Hsim.
  assert (H0 : START < length (store fsm2)).
  { destruct (wf_cls _ Hwf2) as (H0 & _). apply lookup_lt_Some in H0.
    by rewrite classes_length in H0. }
  assert (Heq : forall fuel, check_string fuel fsm1 s = check_string fuel fsm2 s).
  { intros fuel. unfold check_string.
    rewrite (wf_start _ Hwf1), (wf_start _ Hwf2).
    apply (similar_check_loop (length pre) fsm1 fsm2 s Hwf1 Hwf2 Hsim
             fuel [(START, 0)]).
    by apply Forall_singleton. }
  unfold returns. split; intros [fuel H]; exists fuel.
  - by rewrite <- Heq.
  - by rewrite Heq.
Qed.

(** X14: everything before an atom that a quantifier follows, at whatever
    distance, is ignored by the matcher: the automaton of [pre ++ x :: rest]
    and the automaton of [x :: rest] accept the same inputs when [x] is an
    atom and [rest] contains a quantifier. *)
Theorem prefix_before_quantifier_ignored
    (pre rest : str) (x : char) (fsm1 fsm2 : RegexFSM) (s : str) (b : bool) :
  ~ quantifier x -> (exists q, q ∈ rest /\ quantifier q) ->
  compiled (pre ++ x :: rest) fsm1 -> compiled (x :: rest) fsm2 ->
  (returns fsm1 s b <-> returns fsm2 s b).
Proof. apply similar_returns. Qed.

Lemma prefix_before_quantifier_ignored_witness :
  exists fsm1 fsm2,
    compiled (str_of "ab*c") fsm1 /\ compiled (str_of "b*c") fsm2 /\
    (returns fsm1 (str_of "bbc") true <-> returns fsm2 (str_of "bbc") true).
Proof.
  eexists. eexists. split; [vm_compute; reflexivity|].
  split; [vm_compute; reflexivity|].
  apply (prefix_before_quantifier_ignored (str_of "a") (str_of "*c") 98%N).
  - intros [H|H]; discriminate H.
  - exists STAR. split; [by left|by left].
  - vm_compute; reflexivity.
  - vm_compute; reflexivity.
Defined.

Lemma atom_quantifier_compiles x q :
  isascii x = true -> ~ quantifier x -> quantifier q ->
  exists fsm, compiled [x; q] fsm.
Proof.
  intros Ha Hx Hq. apply compiles_iff. split.
  - intros (q' & rest & [= <- _] & Hq'). done.
  - repeat constructor; [done|]. by destruct Hq as [-> | ->].
Qed.

(** X15: a pattern that ends in an atom [x] followed by [*] accepts exactly
    the inputs all of whose characters [x] handles, and one that ends in
    [x] followed by [+] accepts exactly those of them that have at least
    two characters, whatever the pattern has before [x]. *)
Theorem final_quantified_atom (pre : str) (x q : char) (fsm : RegexFSM) (s : str) :
  isascii x = true -> ~ quantifier x -> quantifier q ->
  compiled (pre ++ [x; q]) fsm ->
  (returns fsm s true <->
   (q = PLUS -> 2 <= length s) /\ Forall (handles x) s).
Proof.
  intros Ha Hx Hq Hc.
  destruct (atom_quantifier_compiles x q Ha Hx Hq) as [fsm2 Hc2].
  rewrite (similar_returns pre [q] x fsm fsm2 s true Hx
             ltac:(exists q; split; [by left|done]) Hc Hc2).
  pose proof (compiled_wf _ _ Hc2) as Hwf2.
  rewrite (returns_true_search _ _ Hwf2 (atom_quantifier_fits _ _ _ Hc2)).
  destruct Hq as [-> | ->].
  - destruct (compiled_atom_star x fsm2 Ha Hx Hc2) as (k & Hk & ->).
    rewrite (atom_star_language x k Hk). split; [by intros H|by intros [_ H]].
  - destruct (compiled_atom_plus x fsm2 Ha Hx Hc2) as (k & Hk & ->).
    rewrite (atom_plus_language x k Hk). split.
    + intros [H1 H2]. by split.
    + intros [H1 H2]. split; [by apply H1|done].
Qed.

Lemma final_quantified_atom_witness :
  exists fsm, compiled (str_of "ab*") fsm /\
    (returns fsm (str_of "bb") true <->
     (STAR = PLUS -> 2 <= length (str_of "bb")) /\
     Forall (handles 98%N) (str_of "bb")).
Proof.
  eexists. split; [vm_compute; reflexivity|].
  apply (final_quantified_atom (str_of "a") 98%N STAR).
  - reflexivity.
  - intros [H|H]; discriminate H.
  - by left.
  - vm_compute; reflexivity.
Defined.
